(** * samsung-tv-remote-interface: the wire codec and the client of
      [src/samsungTVClient.js], embedded in Rocq.

    JavaScript numbers that the client handles are lengths, offsets, byte
    values and delays in milliseconds: they are integers and are modelled by
    [Z].  A [Buffer] is the list of its bytes, a JavaScript string the list of
    its UTF-16 code units.  A function that can throw returns a [result]. *)

From Stdlib Require Import ZArith String Ascii List Bool Lia.
Import ListNotations.
Open Scope Z_scope.

(* ================================================================== *)
(** ** Exceptions and results *)

(** The exceptions that reach the client: the [RangeError]s of the Buffer
    API, and the plain [Error]s the client builds itself or receives from
    the socket. *)
Inductive exn : Type :=
| RangeError (code : string)
| Error (message : string).

Inductive result (A : Type) : Type :=
| Ok (a : A)
| Throw (e : exn).
Arguments Ok {A} a.
Arguments Throw {A} e.

Definition bind {A B : Type} (r : result A) (k : A -> result B) : result B :=
  match r with
  | Ok a => k a
  | Throw e => Throw e
  end.

Notation "x <- r ;; k" := (bind r (fun x => k))
  (at level 61, r at next level, right associativity).

Definition out_of_range {A : Type} : result A :=
  Throw (RangeError "ERR_OUT_OF_RANGE").

(** Buffers and strings. *)
Definition Buffer : Type := list Z.
Definition jsstring : Type := list Z.

(** A string literal of the source, as code units. *)
Definition js (s : string) : jsstring :=
  map (fun a => Z.of_N (N_of_ascii a)) (list_ascii_of_string s).

(* ================================================================== *)
(** ** UTF-8, as Node transcodes between strings and buffers *)

Module Utf8.

Definition is_high (u : Z) : bool := (0xD800 <=? u) && (u <=? 0xDBFF).
Definition is_low (u : Z) : bool := (0xDC00 <=? u) && (u <=? 0xDFFF).

Definition replacement : Z := 0xFFFD.

(** The bytes of one code point. *)
Definition encode_cp (c : Z) : list Z :=
  if c <? 0x80 then [c]
  else if c <? 0x800 then
    [Z.lor 0xC0 (Z.shiftr c 6); Z.lor 0x80 (Z.land c 0x3F)]
  else if c <? 0x10000 then
    [Z.lor 0xE0 (Z.shiftr c 12);
     Z.lor 0x80 (Z.land (Z.shiftr c 6) 0x3F);
     Z.lor 0x80 (Z.land c 0x3F)]
  else
    [Z.lor 0xF0 (Z.shiftr c 18);
     Z.lor 0x80 (Z.land (Z.shiftr c 12) 0x3F);
     Z.lor 0x80 (Z.land (Z.shiftr c 6) 0x3F);
     Z.lor 0x80 (Z.land c 0x3F)].

(** The characters of a string, each as its UTF-8 bytes: a surrogate pair
    is one character, a lone surrogate is written as U+FFFD. *)
Fixpoint chunks (s : jsstring) : list (list Z) :=
  match s with
  | [] => []
  | u :: rest =>
      if is_high u then
        match rest with
        | l :: rest' =>
            if is_low l
            then encode_cp (0x10000 + (u - 0xD800) * 0x400 + (l - 0xDC00))
                 :: chunks rest'
            else encode_cp replacement :: chunks rest
        | [] => [encode_cp replacement]
        end
      else if is_low u then encode_cp replacement :: chunks rest
      else encode_cp u :: chunks rest
  end.

Definition encode (s : jsstring) : list Z := concat (chunks s).

(** Decoder state inside a multi-byte sequence. *)
Record pending : Type := mkPending {
  code_point : Z;
  needed : nat;        (* continuation bytes still expected, minus one *)
  lower : Z;
  upper : Z
}.

(** A byte met outside a sequence: what is emitted, and the new state. *)
Definition lead (b : Z) : list Z * option pending :=
  if b <=? 0x7F then ([b], None)
  else if (0xC2 <=? b) && (b <=? 0xDF) then
    ([], Some (mkPending (Z.land b 0x1F) 0 0x80 0xBF))
  else if (0xE0 <=? b) && (b <=? 0xEF) then
    ([], Some (mkPending (Z.land b 0xF) 1
                 (if b =? 0xE0 then 0xA0 else 0x80)
                 (if b =? 0xED then 0x9F else 0xBF)))
  else if (0xF0 <=? b) && (b <=? 0xF4) then
    ([], Some (mkPending (Z.land b 0x7) 2
                 (if b =? 0xF0 then 0x90 else 0x80)
                 (if b =? 0xF4 then 0x8F else 0xBF)))
  else ([replacement], None).

(** Code points of a byte sequence; every maximal ill-formed part becomes
    one U+FFFD, and the byte that broke a sequence is read again. *)
Fixpoint decode_from (st : option pending) (bs : list Z) : list Z :=
  match bs with
  | [] => match st with None => [] | Some _ => [replacement] end
  | b :: rest =>
      match st with
      | None =>
          let '(out, st') := lead b in out ++ decode_from st' rest
      | Some p =>
          if (lower p <=? b) && (b <=? upper p) then
            let c := Z.lor (Z.shiftl (code_point p) 6) (Z.land b 0x3F) in
            match needed p with
            | O => c :: decode_from None rest
            | S n => decode_from (Some (mkPending c n 0x80 0xBF)) rest
            end
          else
            let '(out, st') := lead b in
            replacement :: out ++ decode_from st' rest
      end
  end.

Definition units_of_cp (c : Z) : list Z :=
  if c <? 0x10000 then [c]
  else [0xD800 + Z.shiftr (c - 0x10000) 10;
        0xDC00 + Z.land (c - 0x10000) 0x3FF].

Definition decode (bs : list Z) : jsstring :=
  flat_map units_of_cp (decode_from None bs).

End Utf8.

(* ================================================================== *)
(** ** Base64, the alphabet of RFC 4648 with padding *)

Module Base64.

Definition alphabet (i : Z) : Z :=
  if i <? 26 then 65 + i
  else if i <? 52 then 97 + (i - 26)
  else if i <? 62 then 48 + (i - 52)
  else if i =? 62 then 43
  else 47.

Definition pad : Z := 61.

Fixpoint encode (bs : list Z) : jsstring :=
  match bs with
  | [] => []
  | [a] =>
      [alphabet (Z.shiftr a 2);
       alphabet (Z.shiftl (Z.land a 3) 4);
       pad; pad]
  | [a; b] =>
      [alphabet (Z.shiftr a 2);
       alphabet (Z.lor (Z.shiftl (Z.land a 3) 4) (Z.shiftr b 4));
       alphabet (Z.shiftl (Z.land b 15) 2);
       pad]
  | a :: b :: c :: rest =>
      [alphabet (Z.shiftr a 2);
       alphabet (Z.lor (Z.shiftl (Z.land a 3) 4) (Z.shiftr b 4));
       alphabet (Z.lor (Z.shiftl (Z.land b 15) 2) (Z.shiftr c 6));
       alphabet (Z.land c 63)]
      ++ encode rest
  end.

End Base64.

(* ================================================================== *)
(** ** The part of Node's Buffer API that the client calls *)

Module Buf.

Definition length (b : Buffer) : Z := Z.of_nat (List.length b).

(** [Buffer.alloc(size)]: zero-filled. *)
Definition alloc (size : Z) : Buffer := repeat 0 (Z.to_nat size).

(** Overwrite [bs] into [b] from index [off]; the callers check the room. *)
Definition splice (b : Buffer) (off : Z) (bs : list Z) : Buffer :=
  firstn (Z.to_nat off) b ++ bs
    ++ skipn (Z.to_nat off + List.length bs) b.

(** [buf.writeUInt8(value, offset)] *)
Definition writeUInt8 (value offset : Z) (b : Buffer) : result Buffer :=
  if (value <? 0) || (0xFF <? value) then out_of_range
  else if (offset <? 0) || (length b <? offset + 1) then out_of_range
  else Ok (splice b offset [Z.land value 0xFF]).

(** [buf.writeUInt16LE(value, offset)]: the value is checked against the
    16-bit range first, then the two bytes against the buffer. *)
Definition writeUInt16LE (value offset : Z) (b : Buffer) : result Buffer :=
  if (value <? 0) || (0xFFFF <? value) then out_of_range
  else if (offset <? 0) || (length b <? offset + 2) then out_of_range
  else Ok (splice b offset
             [Z.land value 0xFF; Z.land (Z.shiftr value 8) 0xFF]).

(** [buf.readUInt16LE(offset)] *)
Definition readUInt16LE (offset : Z) (b : Buffer) : result Z :=
  if (offset <? 0) || (length b <? offset + 2) then out_of_range
  else Ok (nth (Z.to_nat offset) b 0
           + nth (Z.to_nat (offset + 1)) b 0 * 2 ^ 8).

(** The longest prefix of whole characters that fits in [room] bytes. *)
Fixpoint fit (room : nat) (cs : list (list Z)) : list Z :=
  match cs with
  | [] => []
  | c :: cs' =>
      if (List.length c <=? room)%nat
      then c ++ fit (room - List.length c) cs'
      else []
  end.

(** [buf.write(string, offset)], UTF-8: writes as much of the string as
    fits after [offset]; a character is written whole or not at all. *)
Definition write (s : jsstring) (offset : Z) (b : Buffer) : result Buffer :=
  if (offset <? 0) || (length b <? offset) then out_of_range
  else Ok (splice b offset
             (fit (Z.to_nat (length b - offset)) (Utf8.chunks s))).

(** [Buffer.from(string)], UTF-8. *)
Definition from_string (s : jsstring) : Buffer := Utf8.encode s.

(** [buf.toString()], UTF-8, and [buf.toString('base64')]. *)
Definition toString (b : Buffer) : jsstring := Utf8.decode b.
Definition toString_base64 (b : Buffer) : jsstring := Base64.encode b.

(** [buf.slice(start, end)]: indices are clamped to the buffer, a negative
    one counts from the end. *)
Definition clamp (i len : Z) : Z :=
  if i <? 0 then Z.max 0 (len + i) else Z.min i len.

Definition slice (start stop : Z) (b : Buffer) : Buffer :=
  let s := clamp start (length b) in
  let e := clamp stop (length b) in
  firstn (Z.to_nat (e - s)) (skipn (Z.to_nat s) b).

(** [buf.compare(target)]: -1, 0 or 1, bytes first and then lengths. *)
Fixpoint compare (a b : Buffer) : Z :=
  match a, b with
  | [], [] => 0
  | [], _ :: _ => -1
  | _ :: _, [] => 1
  | x :: a', y :: b' =>
      if x <? y then -1 else if y <? x then 1 else compare a' b'
  end.

End Buf.

(* ================================================================== *)
(** ** [net.isIP]

    Node decides it with two anchored regular expressions
    ([lib/internal/net.js]); they use no back-reference and no look-around,
    so matching is membership in a regular language, decided here by
    derivatives. *)

Module Net.

Inductive regex : Type :=
| Void
| Eps
| Range (lo hi : Z)
| Alt (r s : regex)
| Cat (r s : regex)
| Star (r : regex).

Fixpoint nullable (r : regex) : bool :=
  match r with
  | Void => false
  | Eps => true
  | Range _ _ => false
  | Alt r s => nullable r || nullable s
  | Cat r s => nullable r && nullable s
  | Star _ => true
  end.

Definition alt (r s : regex) : regex :=
  match r, s with
  | Void, _ => s
  | _, Void => r
  | _, _ => Alt r s
  end.

Definition cat (r s : regex) : regex :=
  match r, s with
  | Void, _ => Void
  | _, Void => Void
  | Eps, _ => s
  | _, Eps => r
  | _, _ => Cat r s
  end.

Fixpoint deriv (c : Z) (r : regex) : regex :=
  match r with
  | Void => Void
  | Eps => Void
  | Range lo hi => if (lo <=? c) && (c <=? hi) then Eps else Void
  | Alt r s => alt (deriv c r) (deriv c s)
  | Cat r s =>
      if nullable r
      then alt (cat (deriv c r) s) (deriv c s)
      else cat (deriv c r) s
  | Star r' => cat (deriv c r') (Star r')
  end.

Fixpoint matches (r : regex) (s : jsstring) : bool :=
  match s with
  | [] => nullable r
  | c :: s' => matches (deriv c r) s'
  end.

(** Regular-expression syntax used by the two patterns. *)
Definition chr (a : ascii) : regex :=
  let c := Z.of_N (N_of_ascii a) in Range c c.
Definition opt (r : regex) : regex := Alt r Eps.
Definition plus (r : regex) : regex := Cat r (Star r).
Definition alts (rs : list regex) : regex := fold_right Alt Void rs.
Definition seq (rs : list regex) : regex := fold_right Cat Eps rs.

(** [r{n}] and [r{lo,lo+more}] *)
Fixpoint times (n : nat) (r : regex) : regex :=
  match n with
  | O => Eps
  | S n' => Cat r (times n' r)
  end.
Fixpoint upto (n : nat) (r : regex) : regex :=
  match n with
  | O => Eps
  | S n' => opt (Cat r (upto n' r))
  end.
Definition between (lo more : nat) (r : regex) : regex :=
  Cat (times lo r) (upto more r).

Definition digit : regex := Range 48 57.           (* \d *)
Definition hex : regex :=                          (* [0-9a-fA-F] *)
  alts [Range 48 57; Range 97 102; Range 65 70].
Definition dot : regex := chr ".".
Definition colon : regex := chr ":".

(** [(?:25[0-5]|2[0-4]\d|1\d\d|[1-9]\d|\d)] *)
Definition v4Seg : regex :=
  alts [ seq [chr "2"; chr "5"; Range 48 53];
         seq [chr "2"; Range 48 52; digit];
         seq [chr "1"; digit; digit];
         seq [Range 49 57; digit];
         digit ].

(** [(?:v4Seg\.){3}v4Seg] *)
Definition v4Str : regex := Cat (times 3 (Cat v4Seg dot)) v4Seg.

(** [(?:[0-9a-fA-F]{1,4})] *)
Definition v6Seg : regex := between 1 3 hex.

Definition seg_colon : regex := Cat v6Seg colon.   (* (?:v6Seg:) *)
Definition colon_seg : regex := Cat colon v6Seg.   (* (?::v6Seg) *)
Definition colon_v4 : regex := Cat colon v4Str.

(** The eight alternatives of the IPv6 pattern, then the optional zone
    [(?:%[0-9a-zA-Z-.:]{1,})?]. *)
Definition v6Body : regex :=
  alts [
    Cat (times 7 seg_colon) (alts [v6Seg; colon]);
    Cat (times 6 seg_colon) (alts [v4Str; colon_seg; colon]);
    Cat (times 5 seg_colon)
        (alts [colon_v4; between 1 1 colon_seg; colon]);
    Cat (times 4 seg_colon)
        (alts [Cat (upto 1 colon_seg) colon_v4;
               between 1 2 colon_seg; colon]);
    Cat (times 3 seg_colon)
        (alts [Cat (upto 2 colon_seg) colon_v4;
               between 1 3 colon_seg; colon]);
    Cat (times 2 seg_colon)
        (alts [Cat (upto 3 colon_seg) colon_v4;
               between 1 4 colon_seg; colon]);
    Cat (times 1 seg_colon)
        (alts [Cat (upto 4 colon_seg) colon_v4;
               between 1 5 colon_seg; colon]);
    Cat colon
        (alts [Cat (upto 5 colon_seg) colon_v4;
               between 1 6 colon_seg; colon])
  ].

Definition zone_char : regex :=
  alts [Range 48 57; Range 97 122; Range 65 90; chr "-"; dot; colon].

Definition IPv4Reg : regex := v4Str.
Definition IPv6Reg : regex :=
  Cat v6Body (opt (Cat (chr "%") (plus zone_char))).

Definition isIPv4 (s : jsstring) : bool := matches IPv4Reg s.
Definition isIPv6 (s : jsstring) : bool := matches IPv6Reg s.

(** [net.isIP(s)]: 4, 6, or 0 when [s] is no IP literal. *)
Definition isIP (s : jsstring) : Z :=
  if isIPv4 s then 4 else if isIPv6 s then 6 else 0.

End Net.

(* ================================================================== *)
(** ** Promises, the socket and its events *)

Inductive value : Type :=
| VUndefined
| VBool (b : bool)
| VString (s : string).

Inductive promise_state : Type :=
| Pending
| Fulfilled (v : value)
| Rejected (e : exn).

(** A promise is known by its index in the client's store. *)
Definition promise : Type := nat.

(** The calls on [this.socket] that start input or output. *)
Inductive socket_call : Type :=
| SockConnect (port : Z) (host : jsstring)
| SockWrite (data : Buffer).

(** What the event loop delivers later: the connection is established, the
    socket reports an error, a chunk of data arrives, a timer expires. *)
Inductive event : Type :=
| EvConnect
| EvError (e : exn)
| EvData (data : Buffer)
| EvTimer (k : nat).

Fixpoint set_nth {A : Type} (n : nat) (x : A) (l : list A) : list A :=
  match l, n with
  | [], _ => []
  | _ :: l', O => x :: l'
  | y :: l', S n' => y :: set_nth n' x l'
  end.

Fixpoint remove_nth {A : Type} (n : nat) (l : list A) : list A :=
  match l, n with
  | [], _ => []
  | _ :: l', O => l'
  | y :: l', S n' => y :: remove_nth n' l'
  end.

(** [a || b] on numbers *)
Definition js_or (a b : Z) : Z := if a =? 0 then b else a.

(** A parameter with a default value; [None] is an omitted argument. *)
Definition default (arg : option Z) (dflt : Z) : Z :=
  match arg with
  | Some v => v
  | None => dflt
  end.

(* ================================================================== *)
(** ** [class SamsungTVClient] *)

Module SamsungTVClient.

Record responses : Type := mkResponses {
  granted : Buffer;
  denied : Buffer;
  await : Buffer;
  timeout : Buffer
}.

Definition accessResponse : responses :=
  {| granted := [0x64; 0x00; 0x01; 0x00];
     denied := [0x64; 0x00; 0x00; 0x00];
     await := [0x0A; 0x00; 0x02; 0x00; 0x00; 0x00];
     timeout := [0x65; 0x00] |}.

(** *** The static codec *)

Definition strlen (s : jsstring) : Z := Z.of_nat (List.length s).

Definition toBase64 (s : jsstring) : jsstring :=
  Buf.toString_base64 (Buf.from_string s).

Definition createMessage (payload : Buffer) : result Buffer :=
  let name := js "iphone.iapp.samsung" in
  let nameSize := strlen name in
  let payloadSize := Buf.length payload in
  let buffLen := 5 + nameSize + payloadSize in
  let message := Buf.alloc buffLen in
  let offset := 1 in
  message <- Buf.writeUInt16LE nameSize offset message ;;
  let offset := offset + 2 in
  message <- Buf.write name offset message ;;
  let offset := offset + nameSize in
  message <- Buf.writeUInt16LE payloadSize offset message ;;
  let offset := offset + 2 in
  message <- Buf.write (Buf.toString payload) offset message ;;
  Ok message.

Definition createAuthPayload (ip id name : jsstring) : result Buffer :=
  if Net.isIP ip =? 0 then Throw (Error "Not a valid IP")
  else
    let ipBase64 := toBase64 ip in
    let ipSize := strlen ipBase64 in
    let idBase64 := toBase64 id in
    let idSize := strlen idBase64 in
    let nameBase64 := toBase64 name in
    let nameSize := strlen nameBase64 in
    let buffLen := 8 + ipSize + idSize + nameSize in
    let payload := Buf.alloc buffLen in
    let offset := 0 in
    payload <- Buf.writeUInt8 0x64 offset payload ;;
    let offset := offset + 2 in
    payload <- Buf.writeUInt16LE ipSize offset payload ;;
    let offset := offset + 2 in
    payload <- Buf.write ipBase64 offset payload ;;
    let offset := offset + ipSize in
    payload <- Buf.writeUInt16LE idSize offset payload ;;
    let offset := offset + 2 in
    payload <- Buf.write idBase64 offset payload ;;
    let offset := offset + idSize in
    payload <- Buf.writeUInt16LE nameSize offset payload ;;
    let offset := offset + 2 in
    payload <- Buf.write nameBase64 offset payload ;;
    Ok payload.

Definition createKeyPayload (key : jsstring) : result Buffer :=
  let keyBase64 := toBase64 key in
  let keySize := strlen keyBase64 in
  let buffLen := 5 + keySize in
  let payload := Buf.alloc buffLen in
  let offset := 3 in
  payload <- Buf.writeUInt16LE keySize offset payload ;;
  let offset := offset + 2 in
  payload <- Buf.write keyBase64 offset payload ;;
  Ok payload.

Definition parseResponse (response : Buffer) : result Buffer :=
  let offset := 1 in
  stringLen <- Buf.readUInt16LE offset response ;;
  let offset := offset + (2 + stringLen) in
  payloadSize <- Buf.readUInt16LE offset response ;;
  let offset := offset + 2 in
  Ok (Buf.slice offset (payloadSize + offset) response).

(** *** The instance

    [this.delay], the promises created so far, and [this.socket]: the calls
    made on it and the listeners it holds.  A listener is named by the
    promise whose [resolve] or [reject] it is (or closes over). *)
Record client : Type := mkClient {
  delay : Z;
  promises : list promise_state;
  calls : list socket_call;
  on_connect : list promise;     (* socket.connect(_, _, resolve) *)
  on_error : list promise;       (* socket.on('error', reject) *)
  on_data : list promise;        (* socket.on('data', data => ...) *)
  timers : list (promise * Z);   (* setTimeout(resolve, ms) *)
  uncaught : list exn            (* thrown out of a listener *)
}.

Definition constructor (delay : option Z) : client :=
  mkClient (default delay 0) [] [] [] [] [] [] [].

Definition state_of (st : client) (p : promise) : option promise_state :=
  nth_error (promises st) p.

Definition with_promises (ps : list promise_state) (st : client) : client :=
  mkClient (delay st) ps (calls st) (on_connect st) (on_error st)
    (on_data st) (timers st) (uncaught st).

(** [new Promise(...)]: the promise the executor is about to run for. *)
Definition new_promise (st : client) : promise * client :=
  (List.length (promises st), with_promises (promises st ++ [Pending]) st).

(** [resolve] and [reject] act on a pending promise only. *)
Definition settle (p : promise) (s : promise_state) (st : client) : client :=
  match state_of st p with
  | Some Pending => with_promises (set_nth p s (promises st)) st
  | _ => st
  end.

Definition resolve (p : promise) (v : value) : client -> client :=
  settle p (Fulfilled v).
Definition reject (p : promise) (e : exn) : client -> client :=
  settle p (Rejected e).

Definition socket_do (c : socket_call) (st : client) : client :=
  mkClient (delay st) (promises st) (calls st ++ [c]) (on_connect st)
    (on_error st) (on_data st) (timers st) (uncaught st).

Definition add_on_connect (p : promise) (st : client) : client :=
  mkClient (delay st) (promises st) (calls st) (on_connect st ++ [p])
    (on_error st) (on_data st) (timers st) (uncaught st).

Definition add_on_error (p : promise) (st : client) : client :=
  mkClient (delay st) (promises st) (calls st) (on_connect st)
    (on_error st ++ [p]) (on_data st) (timers st) (uncaught st).

Definition add_on_data (p : promise) (st : client) : client :=
  mkClient (delay st) (promises st) (calls st) (on_connect st)
    (on_error st) (on_data st ++ [p]) (timers st) (uncaught st).

Definition setTimeout (p : promise) (ms : Z) (st : client) : client :=
  mkClient (delay st) (promises st) (calls st) (on_connect st)
    (on_error st) (on_data st) (timers st ++ [(p, ms)]) (uncaught st).

Definition throw_uncaught (e : exn) (st : client) : client :=
  mkClient (delay st) (promises st) (calls st) (on_connect st)
    (on_error st) (on_data st) (timers st) (uncaught st ++ [e]).

(** *** The methods *)

Definition connect (ip : jsstring) (st : client) : promise * client :=
  let '(p, st) := new_promise st in
  let st :=
    if Net.isIP ip =? 0 then reject p (Error "Not a valid IP") st else st in
  let st := add_on_connect p (socket_do (SockConnect 55000 ip) st) in
  let st := add_on_error p st in
  (p, st).

(** An exception thrown by the executor rejects the promise; here it can
    come from [createAuthPayload] or [createMessage], before the write. *)
Definition authenticate (clientIP clientUID clientName : jsstring)
    (st : client) : promise * client :=
  let '(p, st) := new_promise st in
  let st :=
    if Net.isIP clientIP =? 0
    then reject p (Error "Not a valid IP") st else st in
  match (payload <- createAuthPayload clientIP clientUID clientName ;;
         createMessage payload) with
  | Throw e => (p, reject p e st)
  | Ok message =>
      let st := socket_do (SockWrite message) st in
      (p, add_on_data p st)
  end.

(** The listener that [authenticate] installs, for the promise [p]. *)
Definition auth_listener (p : promise) (data : Buffer) (st : client)
    : result client :=
  payload <- parseResponse data ;;
  if Buf.compare payload (granted accessResponse) =? 0 then
    Ok (resolve p (VString "Success") st)
  else if Buf.compare payload (denied accessResponse) =? 0 then
    Ok (reject p (Error "Access denied") st)
  else if Buf.compare payload (timeout accessResponse) =? 0 then
    Ok (reject p (Error "Timeout") st)
  else Ok st.

(** [flushed] is what [socket.write] returns. *)
Definition send (buffer : Buffer) (flushed : bool) (st : client)
    : promise * client :=
  let '(p, st) := new_promise st in
  let st := socket_do (SockWrite buffer) st in
  (p, resolve p (VBool flushed) st).

(** The promise of [send] is already fulfilled when [then] is called on
    it, so its callback runs before any event: the timer is set within the
    call. *)
Definition sendMessage (message : Buffer) (delay_arg : option Z)
    (flushed : bool) (st : client) : promise * client :=
  let d := default delay_arg (delay st) in
  let '(q, st) := new_promise st in
  let '(_, st) := send message flushed st in
  (q, setTimeout q (js_or d (delay st)) st).

Definition sendMessageByPayload (payload : Buffer) (delay_arg : option Z)
    (flushed : bool) (st : client) : result (promise * client) :=
  let d := default delay_arg (delay st) in
  message <- createMessage payload ;;
  Ok (sendMessage message (Some d) flushed st).

(** *** Events *)

(** Listeners of one event run in the order they were added; an exception
    out of one of them ends the emit. *)
Fixpoint emit_data (ls : list promise) (data : Buffer) (st : client)
    : client :=
  match ls with
  | [] => st
  | p :: ls' =>
      match auth_listener p data st with
      | Ok st' => emit_data ls' data st'
      | Throw e => throw_uncaught e st
      end
  end.

Definition clear_on_connect (st : client) : client :=
  mkClient (delay st) (promises st) (calls st) [] (on_error st)
    (on_data st) (timers st) (uncaught st).

Definition clear_timer (k : nat) (st : client) : client :=
  mkClient (delay st) (promises st) (calls st) (on_connect st)
    (on_error st) (on_data st) (remove_nth k (timers st)) (uncaught st).

Definition step (ev : event) (st : client) : client :=
  match ev with
  | EvConnect =>
      fold_left (fun s p => resolve p VUndefined s) (on_connect st)
        (clear_on_connect st)
  | EvError e =>
      match on_error st with
      | [] => throw_uncaught e st
      | ls => fold_left (fun s p => reject p e s) ls st
      end
  | EvData data => emit_data (on_data st) data st
  | EvTimer k =>
      match nth_error (timers st) k with
      | Some (p, _) => resolve p VUndefined (clear_timer k st)
      | None => st
      end
  end.

Definition run (evs : list event) (st : client) : client :=
  fold_left (fun s ev => step ev s) evs st.

(** Every listener and timer belongs to a promise of the store. *)
Definition known (st : client) (p : promise) : Prop :=
  (p < List.length (promises st))%nat.

Definition wf (st : client) : Prop :=
  Forall (known st) (on_connect st)
  /\ Forall (known st) (on_error st)
  /\ Forall (known st) (on_data st)
  /\ Forall (known st) (map fst (timers st)).

End SamsungTVClient.

Import SamsungTVClient.

(* ================================================================== *)
(** ** The layouts of the protocol description, for comparison *)

(** [LL LH]: a 16-bit length, low byte first. *)
Definition u16le (v : Z) : list Z := [v mod 256; (v / 256) mod 256].

(** A length-prefixed field. *)
Definition field (bs : list Z) : list Z := u16le (Buf.length bs) ++ bs.

(** [00 | LL LH | "iphone.iapp.samsung" | LL LH | payload] *)
Definition envelope_layout (payload : Buffer) : Buffer :=
  [0x00] ++ field (js "iphone.iapp.samsung") ++ field payload.

(** [64 | 00 | LL LH ip-base64 | LL LH id-base64 | LL LH name-base64] *)
Definition auth_layout (ip id name : jsstring) : Buffer :=
  [0x64; 0x00] ++ field (toBase64 ip) ++ field (toBase64 id)
    ++ field (toBase64 name).

(** [00 00 00 | LL LH key-base64] *)
Definition key_layout (key : jsstring) : Buffer :=
  [0x00; 0x00; 0x00] ++ field (toBase64 key).

(** Characters that UTF-8 writes as themselves, in one byte. *)
Definition ascii7 (c : Z) : Prop := c < 0x80.

(** The three base64 forms of an auth payload fit their length fields. *)
Definition fits16 (s : jsstring) : bool := strlen (toBase64 s) <=? 0xFFFF.

(** The handshake phase that the description names, read off the promise
    of [authenticate]. *)
Inductive phase : Type := AuthPending | Authenticated | AuthFailed.

Definition phase_of (s : promise_state) : phase :=
  match s with
  | Pending => AuthPending
  | Fulfilled _ => Authenticated
  | Rejected _ => AuthFailed
  end.

(** A frame that carries [payload], when [createMessage] builds one. *)
Definition frame_of (payload : Buffer) : Buffer :=
  match createMessage payload with
  | Ok m => m
  | Throw _ => []
  end.

(** A frame that the listener of [authenticate] reads and matches with none
    of granted, denied and timeout. *)
Definition unclassified (data : Buffer) : Prop :=
  exists payload,
    parseResponse data = Ok payload
    /\ payload <> granted accessResponse
    /\ payload <> denied accessResponse
    /\ payload <> timeout accessResponse.

Definition not_rejected (st : client) (p : promise) : Prop :=
  forall e, state_of st p <> Some (Rejected e).

(** A session for the examples: a client connected to the television, and
    the same client with an [authenticate] call under way. *)
Definition example_connected : client :=
  step EvConnect (snd (connect (js "192.168.0.10") (constructor None))).

(** [createKeyPayload('KEY_VOLDOWN')] *)
Definition example_key_payload : Buffer :=
  match createKeyPayload (js "KEY_VOLDOWN") with
  | Ok payload => payload
  | Throw _ => []
  end.

Definition example_pending : promise * client :=
  authenticate (js "192.168.0.2") (js "uid") (js "remote") example_connected.

(** No listener of the socket can reject [p], and nothing has. *)
Definition out_of_reach (st : client) (p : promise) : Prop :=
  not_rejected st p /\ ~ In p (on_error st) /\ ~ In p (on_data st).

(** [st'] has the listeners, the timers and as many promises as [st]. *)
Definition same_shape (st st' : client) : Prop :=
  on_connect st' = on_connect st
  /\ on_error st' = on_error st
  /\ on_data st' = on_data st
  /\ timers st' = timers st
  /\ List.length (promises st') = List.length (promises st).

(** The states a client goes through: method calls and events, in any
    order, from a new instance. *)
Inductive reachable : client -> Prop :=
| reach_new (d : option Z) : reachable (constructor d)
| reach_connect (ip : jsstring) (st : client) :
    reachable st -> reachable (snd (connect ip st))
| reach_authenticate (ip id name : jsstring) (st : client) :
    reachable st -> reachable (snd (authenticate ip id name st))
| reach_send (buffer : Buffer) (flushed : bool) (st : client) :
    reachable st -> reachable (snd (send buffer flushed st))
| reach_sendMessage (message : Buffer) (d : option Z) (flushed : bool)
    (st : client) :
    reachable st -> reachable (snd (sendMessage message d flushed st))
| reach_step (ev : event) (st : client) :
    reachable st -> reachable (step ev st).

(** What [createMessage] stores in the payload field: the payload decoded
    as UTF-8 and encoded again, as many whole characters as fit the length
    of the payload, and zeros after them. *)
Definition carried (payload : Buffer) : Buffer :=
  let written :=
    Buf.fit (List.length payload) (Utf8.chunks (Buf.toString payload)) in
  written ++ repeat 0 (List.length payload - List.length written).


(** The events that are the expiry of a timer. *)
Definition is_timer (ev : event) : bool :=
  match ev with
  | EvTimer _ => true
  | _ => false
  end.

(** No listener of the socket holds [p], which is pending: only a timer can
    settle it. *)
Definition waits_for_timer (st : client) (p : promise) : Prop :=
  state_of st p = Some Pending
  /\ ~ In p (on_connect st) /\ ~ In p (on_error st) /\ ~ In p (on_data st).

(* ================================================================== *)
(** * Facts *)

(** ** Bytes and buffers *)

Lemma land_255 v : Z.land v 0xFF = v mod 256.
Proof. change 0xFF with (Z.ones 8). now rewrite Z.land_ones by lia. Qed.

Lemma shiftr_8 v : Z.shiftr v 8 = v / 256.
Proof. now rewrite Z.shiftr_div_pow2 by lia. Qed.

Lemma u16le_value v : 0 <= v <= 0xFFFF -> v mod 256 + (v / 256) mod 256 * 2 ^ 8 = v.
Proof.
  intros H. change (2 ^ 8) with 256.
  rewrite (Z.mod_small (v / 256)).
  - pose proof (Z.div_mod v 256). lia.
  - split; [apply Z.div_pos; lia | apply Z.div_lt_upper_bound; lia].
Qed.

Lemma length_u16le (v : Z) : Buf.length (u16le v) = 2.
Proof. reflexivity. Qed.

Lemma length_app_Z (a b : list Z) :
  Buf.length (a ++ b) = Buf.length a + Buf.length b.
Proof. unfold Buf.length. rewrite length_app. lia. Qed.

Lemma length_nonneg (b : Buffer) : 0 <= Buf.length b.
Proof. unfold Buf.length. lia. Qed.

Lemma alloc_add (n m : nat) :
  Buf.alloc (Z.of_nat n + Z.of_nat m) = repeat 0 n ++ repeat 0 m.
Proof.
  unfold Buf.alloc. rewrite <- Nat2Z.inj_add, Nat2Z.id. apply repeat_app.
Qed.

Lemma splice_app (pre mid post bs : list Z) (off : Z) :
  off = Buf.length pre ->
  List.length mid = List.length bs ->
  Buf.splice (pre ++ mid ++ post) off bs = pre ++ bs ++ post.
Proof.
  intros -> Hm. unfold Buf.splice, Buf.length. rewrite Nat2Z.id.
  rewrite firstn_app, Nat.sub_diag, firstn_all, app_nil_r.
  do 2 f_equal.
  rewrite skipn_app, skipn_all2 by lia.
  replace (List.length pre + List.length bs - List.length pre)%nat
    with (List.length mid) by lia.
  now rewrite skipn_app, skipn_all, Nat.sub_diag.
Qed.

Lemma writeUInt8_at (pre post : list Z) (x v off : Z) :
  0 <= v <= 0xFF ->
  off = Buf.length pre ->
  Buf.writeUInt8 v off (pre ++ x :: post) = Ok (pre ++ v :: post).
Proof.
  intros Hv Ho. unfold Buf.writeUInt8.
  pose proof (length_nonneg pre) as Hp. pose proof (length_nonneg post) as Hq.
  replace ((v <? 0) || (0xFF <? v)) with false
    by (symmetry; apply orb_false_iff; split; apply Z.ltb_ge; lia).
  rewrite length_app_Z. change (x :: post) with ([x] ++ post).
  rewrite length_app_Z. change (Buf.length [x]) with 1.
  replace ((off <? 0) || (Buf.length pre + (1 + Buf.length post) <? off + 1))
    with false
    by (symmetry; apply orb_false_iff; split; apply Z.ltb_ge; lia).
  rewrite (splice_app pre [x] post) by auto.
  rewrite land_255, Z.mod_small by lia. reflexivity.
Qed.

Lemma writeUInt16LE_at (pre post : list Z) (x y v off : Z) :
  0 <= v <= 0xFFFF ->
  off = Buf.length pre ->
  Buf.writeUInt16LE v off (pre ++ x :: y :: post)
  = Ok (pre ++ u16le v ++ post).
Proof.
  intros Hv Ho. unfold Buf.writeUInt16LE.
  pose proof (length_nonneg pre) as Hp. pose proof (length_nonneg post) as Hq.
  replace ((v <? 0) || (0xFFFF <? v)) with false
    by (symmetry; apply orb_false_iff; split; apply Z.ltb_ge; lia).
  rewrite length_app_Z. change (x :: y :: post) with ([x; y] ++ post).
  rewrite length_app_Z. change (Buf.length [x; y]) with 2.
  replace ((off <? 0) || (Buf.length pre + (2 + Buf.length post) <? off + 2))
    with false
    by (symmetry; apply orb_false_iff; split; apply Z.ltb_ge; lia).
  rewrite (splice_app pre [x; y] post) by auto.
  now rewrite land_255, land_255, shiftr_8.
Qed.

Lemma writeUInt16LE_too_big (v off : Z) (b : Buffer) :
  0xFFFF < v -> Buf.writeUInt16LE v off b = out_of_range.
Proof.
  intros H. unfold Buf.writeUInt16LE.
  replace (0xFFFF <? v) with true by (symmetry; apply Z.ltb_lt; lia).
  now rewrite orb_true_r.
Qed.

Lemma readUInt16LE_at (pre post : list Z) (v off : Z) :
  0 <= v <= 0xFFFF ->
  off = Buf.length pre ->
  Buf.readUInt16LE off (pre ++ u16le v ++ post) = Ok v.
Proof.
  intros Hv ->. unfold Buf.readUInt16LE.
  pose proof (length_nonneg pre) as Hp. pose proof (length_nonneg post) as Hq.
  rewrite !length_app_Z. change (Buf.length (u16le v)) with 2.
  replace ((Buf.length pre <? 0)
           || (Buf.length pre + (2 + Buf.length post) <? Buf.length pre + 2))
    with false
    by (symmetry; apply orb_false_iff; split; apply Z.ltb_ge; lia).
  f_equal. unfold Buf.length.
  replace (Z.to_nat (Z.of_nat (List.length pre) + 1))
    with (S (List.length pre)) by lia.
  rewrite Nat2Z.id.
  rewrite (app_nth2 pre _ 0 (n := List.length pre)) by lia.
  rewrite (app_nth2 pre _ 0 (n := S (List.length pre))) by lia.
  replace (S (List.length pre) - List.length pre)%nat with 1%nat by lia.
  rewrite Nat.sub_diag.
  cbn [u16le nth app]. now apply u16le_value.
Qed.

Lemma slice_at (pre bs post : list Z) (start stop : Z) :
  start = Buf.length pre ->
  stop = Buf.length bs + start ->
  Buf.slice start stop (pre ++ bs ++ post) = bs.
Proof.
  intros -> ->. unfold Buf.slice, Buf.clamp.
  pose proof (length_nonneg pre) as Hp. pose proof (length_nonneg post) as Hq.
  pose proof (length_nonneg bs) as Hb.
  rewrite !length_app_Z.
  replace (Buf.length pre <? 0) with false by (symmetry; apply Z.ltb_ge; lia).
  replace (Buf.length bs + Buf.length pre <? 0) with false
    by (symmetry; apply Z.ltb_ge; lia).
  rewrite !Z.min_l by lia.
  replace (Buf.length bs + Buf.length pre - Buf.length pre)
    with (Buf.length bs) by lia.
  unfold Buf.length. rewrite !Nat2Z.id.
  rewrite skipn_app, skipn_all, Nat.sub_diag. cbn [skipn app].
  now rewrite firstn_app, Nat.sub_diag, firstn_all, app_nil_r.
Qed.

(** ** Seven-bit text goes through UTF-8 unchanged *)

Lemma chunks_ascii7 (s : jsstring) :
  Forall ascii7 s -> Utf8.chunks s = map (fun c => [c]) s.
Proof.
  induction 1 as [|u s Hu _ IH]; [reflexivity|].
  unfold ascii7 in Hu. cbn [Utf8.chunks map].
  unfold Utf8.is_high, Utf8.is_low, Utf8.encode_cp.
  replace (0xD800 <=? u) with false by (symmetry; apply Z.leb_gt; lia).
  replace (0xDC00 <=? u) with false by (symmetry; apply Z.leb_gt; lia).
  replace (u <? 0x80) with true by (symmetry; apply Z.ltb_lt; lia).
  cbn [andb]. now rewrite IH.
Qed.

Lemma decode_ascii7 (bs : list Z) :
  Forall ascii7 bs -> Buf.toString bs = bs.
Proof.
  unfold Buf.toString, Utf8.decode.
  induction 1 as [|b bs Hb _ IH]; [reflexivity|].
  unfold ascii7 in Hb. cbn [Utf8.decode_from]. unfold Utf8.lead.
  replace (b <=? 0x7F) with true by (symmetry; apply Z.leb_le; lia).
  cbn [app flat_map]. unfold Utf8.units_of_cp at 1.
  replace (b <? 0x10000) with true by (symmetry; apply Z.ltb_lt; lia).
  cbn [app]. now rewrite IH.
Qed.

Lemma fit_singletons (room : nat) (s : list Z) :
  (List.length s <= room)%nat ->
  Buf.fit room (map (fun c => [c]) s) = s.
Proof.
  revert room. induction s as [|c s IH]; intros room H; [reflexivity|].
  cbn [map Buf.fit List.length] in *.
  destruct room as [|room]; [lia|].
  cbn [Nat.leb Nat.sub app]. rewrite Nat.sub_0_r, IH by lia. reflexivity.
Qed.

Lemma write_ascii7_at (pre mid post : list Z) (s : jsstring) (off : Z) :
  Forall ascii7 s ->
  off = Buf.length pre ->
  List.length mid = List.length s ->
  Buf.write s off (pre ++ mid ++ post) = Ok (pre ++ s ++ post).
Proof.
  intros Hs Ho Hm. unfold Buf.write.
  pose proof (length_nonneg pre) as Hp. pose proof (length_nonneg post) as Hq.
  pose proof (length_nonneg mid) as Hd.
  rewrite !length_app_Z.
  replace ((off <? 0)
           || (Buf.length pre + (Buf.length mid + Buf.length post) <? off))
    with false
    by (symmetry; apply orb_false_iff; split; apply Z.ltb_ge; lia).
  rewrite chunks_ascii7, fit_singletons by (auto; unfold Buf.length in *; lia).
  now rewrite splice_app.
Qed.

(** ** Base64 text *)

Lemma alphabet_ascii7 (i : Z) : ascii7 (Base64.alphabet i).
Proof.
  unfold ascii7, Base64.alphabet.
  destruct (Z.ltb_spec i 26); [lia|].
  destruct (Z.ltb_spec i 52); [lia|].
  destruct (Z.ltb_spec i 62); [lia|].
  destruct (i =? 62); lia.
Qed.

(** Lists three elements at a time, as [Base64.encode] reads them. *)
Lemma list_ind3 {A : Type} (P : list A -> Prop) :
  P [] -> (forall a, P [a]) -> (forall a b, P [a; b]) ->
  (forall a b c l, P l -> P (a :: b :: c :: l)) ->
  forall l, P l.
Proof.
  intros H0 H1 H2 H3.
  fix IH 1. intros [|a [|b [|c l]]].
  - exact H0.
  - apply H1.
  - apply H2.
  - apply H3, IH.
Qed.

Lemma base64_ascii7 (bs : list Z) : Forall ascii7 (Base64.encode bs).
Proof.
  induction bs as [|a|a b|a b c l IH] using list_ind3; cbn [Base64.encode].
  - constructor.
  - repeat constructor; try apply alphabet_ascii7; unfold ascii7, Base64.pad; lia.
  - repeat constructor; try apply alphabet_ascii7; unfold ascii7, Base64.pad; lia.
  - cbn [app]. repeat (constructor; [apply alphabet_ascii7|]). exact IH.
Qed.

Lemma base64_length (bs : list Z) :
  strlen (Base64.encode bs) = 4 * ((Buf.length bs + 2) / 3).
Proof.
  unfold strlen, Buf.length.
  induction bs as [|a|a b|a b c l IH] using list_ind3;
    cbn [Base64.encode]; try reflexivity.
  cbn [app List.length]. rewrite !Nat2Z.inj_succ, IH.
  replace (Z.succ (Z.succ (Z.succ (Z.of_nat (List.length l)))) + 2)
    with ((Z.of_nat (List.length l) + 2) + 1 * 3) by lia.
  rewrite Z.div_add by lia. lia.
Qed.

Lemma toBase64_ascii7 (s : jsstring) : Forall ascii7 (toBase64 s).
Proof. apply base64_ascii7. Qed.

(** ** The envelope *)

Lemma length_name : strlen (js "iphone.iapp.samsung") = 19.
Proof. reflexivity. Qed.

Lemma name_ascii7 : Forall ascii7 (js "iphone.iapp.samsung").
Proof. unfold ascii7. repeat constructor. Qed.

(** On a payload of seven-bit bytes, [createMessage] builds the envelope of
    the protocol description. *)
Lemma createMessage_ascii7 (payload : Buffer) :
  Forall ascii7 payload ->
  Buf.length payload <= 0xFFFF ->
  createMessage payload = Ok (envelope_layout payload).
Proof.
  intros Ha Hl. unfold createMessage, envelope_layout, field.
  pose proof (length_nonneg payload) as Hp.
  set (name := js "iphone.iapp.samsung").
  change (strlen name) with 19. change (Buf.length name) with 19.
  replace (5 + 19 + Buf.length payload)
    with (Z.of_nat 24 + Z.of_nat (List.length payload))
    by (unfold Buf.length; lia).
  rewrite alloc_add.
  set (zeros := repeat 0 (List.length payload)).
  change (repeat 0 24 ++ zeros)
    with ([0] ++ 0 :: 0 :: (repeat 0 19 ++ [0; 0] ++ zeros)).
  rewrite (writeUInt16LE_at [0]) by (cbn; lia). cbn [bind].
  rewrite (app_assoc [0]).
  rewrite (write_ascii7_at ([0] ++ u16le 19) (repeat 0 19))
    by (try apply name_ascii7; reflexivity).
  cbn [bind]. rewrite (app_assoc ([0] ++ u16le 19)).
  change ([0; 0] ++ zeros) with (0 :: 0 :: zeros).
  rewrite (writeUInt16LE_at (([0] ++ u16le 19) ++ name))
    by (try reflexivity; lia).
  cbn [bind]. rewrite decode_ascii7 by assumption.
  rewrite app_assoc. rewrite <- (app_nil_r zeros).
  rewrite (write_ascii7_at _ zeros [])
    by (try assumption; try apply repeat_length;
        rewrite !length_app_Z; reflexivity).
  cbn [bind]. rewrite app_nil_r, <- !app_assoc. reflexivity.
Qed.

Lemma parseResponse_envelope (payload : Buffer) :
  Buf.length payload <= 0xFFFF ->
  parseResponse (envelope_layout payload) = Ok payload.
Proof.
  intros Hl. pose proof (length_nonneg payload) as Hp.
  unfold parseResponse, envelope_layout, field.
  set (name := js "iphone.iapp.samsung").
  change (Buf.length name) with 19.
  rewrite <- !app_assoc.
  rewrite (readUInt16LE_at [0]) by (cbn; lia). cbn [bind].
  replace ([0] ++ u16le 19 ++ name ++ u16le (Buf.length payload) ++ payload)
    with (([0] ++ u16le 19 ++ name) ++ u16le (Buf.length payload) ++ payload)
    by (rewrite <- !app_assoc; reflexivity).
  rewrite (readUInt16LE_at ([0] ++ u16le 19 ++ name)) by (try reflexivity; lia).
  cbn [bind]. f_equal.
  replace (([0] ++ u16le 19 ++ name) ++ u16le (Buf.length payload) ++ payload)
    with ((([0] ++ u16le 19 ++ name) ++ u16le (Buf.length payload)) ++ payload ++ [])
    by (rewrite app_nil_r, <- !app_assoc; reflexivity).
  apply slice_at; rewrite ?length_app_Z; cbn; lia.
Qed.

(** Round trip of the envelope, on the payloads that [createMessage]
    carries unchanged. *)
Lemma roundtrip_ascii7 (payload : Buffer) :
  Forall ascii7 payload ->
  Buf.length payload <= 0xFFFF ->
  (message <- createMessage payload ;; parseResponse message) = Ok payload.
Proof.
  intros Ha Hl. rewrite createMessage_ascii7 by assumption.
  cbn [bind]. now apply parseResponse_envelope.
Qed.

(** C1.  Round trip of the envelope, evaluated on the one-byte payload [FF]:
    [createMessage] passes the payload through [payload.toString()], which
    reads it as UTF-8; the byte [FF] becomes U+FFFD, whose three bytes do not
    fit the one byte left, so nothing is written and [parseResponse] gets
    back [00], not [FF].  The claimed identity fails on a payload of length
    1. *)
Theorem roundtrip_fails_on_byte_FF :
  Buf.length [0xFF] <= 65535
  /\ createMessage [0xFF] = Ok (envelope_layout [0x00])
  /\ (message <- createMessage [0xFF] ;; parseResponse message) = Ok [0x00]
  /\ (message <- createMessage [0xFF] ;; parseResponse message) <> Ok [0xFF].
Proof.
  repeat split; try (vm_compute; congruence).
Qed.

(** The same defect on a payload the client builds itself: with a
    controller name of 96 characters the base64 form has 128 = 0x80
    characters, the length byte [80] is not UTF-8, and the envelope no longer
    carries the auth payload. *)
Lemma roundtrip_fails_on_long_name :
  exists payload,
    createAuthPayload (js "192.168.0.2") (js "uid") (repeat 97 96) = Ok payload
    /\ Buf.length payload <= 65535
    /\ (message <- createMessage payload ;; parseResponse message)
       <> Ok payload.
Proof.
  eexists. split; [vm_compute; reflexivity|].
  split; vm_compute; congruence.
Qed.

(** ** The auth payload *)

Lemma fits16_spec (s : jsstring) :
  fits16 s = true <-> 0 <= strlen (toBase64 s) <= 0xFFFF.
Proof.
  unfold fits16. rewrite Z.leb_le. unfold strlen. lia.
Qed.

(** What [createAuthPayload] returns on a valid address: the layout of the
    protocol description when the three base64 forms fit their 16-bit length
    fields, a range error from [writeUInt16LE] when one does not. *)
Lemma createAuthPayload_cases (ip id name : jsstring) :
  Net.isIP ip <> 0 ->
  createAuthPayload ip id name =
    if fits16 ip && fits16 id && fits16 name
    then Ok (auth_layout ip id name)
    else out_of_range.
Proof.
  intros Hip. unfold createAuthPayload, auth_layout, field.
  replace (Net.isIP ip =? 0) with false by (symmetry; now apply Z.eqb_neq).
  pose proof (toBase64_ascii7 ip) as Aa.
  pose proof (toBase64_ascii7 id) as Ab.
  pose proof (toBase64_ascii7 name) as Ac.
  pose proof (fits16_spec ip) as Fa.
  pose proof (fits16_spec id) as Fb.
  pose proof (fits16_spec name) as Fc.
  set (a := toBase64 ip) in *. set (b := toBase64 id) in *.
  set (c := toBase64 name) in *.
  change (Buf.length a) with (strlen a). change (Buf.length b) with (strlen b).
  change (Buf.length c) with (strlen c).
  assert (Hbuf : Buf.alloc (8 + strlen a + strlen b + strlen c)
                 = [] ++ 0 :: (0 :: 0 :: 0 :: (repeat 0 (List.length a)
                    ++ 0 :: 0 :: (repeat 0 (List.length b)
                    ++ 0 :: 0 :: (repeat 0 (List.length c) ++ []))))).
  { unfold Buf.alloc, strlen.
    replace (Z.to_nat (8 + Z.of_nat (List.length a) + Z.of_nat (List.length b)
                       + Z.of_nat (List.length c)))
      with (4 + (List.length a + (2 + (List.length b
              + (2 + (List.length c + 0))))))%nat by lia.
    rewrite !repeat_app. reflexivity. }
  rewrite Hbuf. clear Hbuf.
  rewrite writeUInt8_at by (try reflexivity; lia). cbn [bind].
  change ([] ++ 0x64 :: 0 :: ?x) with ([0x64; 0] ++ x).
  destruct (fits16 ip).
  2:{ cbn [andb]. rewrite writeUInt16LE_too_big; [reflexivity|].
      destruct (Z.leb_spec (strlen a) 0xFFFF) as [H|H]; [|exact H].
      unfold strlen in *. destruct Fa as [_ Fa]. discriminate Fa. lia. }
  rewrite (writeUInt16LE_at [0x64; 0]) by (try reflexivity; now apply Fa).
  cbn [bind]. rewrite (app_assoc [0x64; 0]).
  rewrite (write_ascii7_at _ (repeat 0 (List.length a)))
    by (try assumption; try apply repeat_length;
        rewrite !length_app_Z; reflexivity).
  cbn [bind]. rewrite (app_assoc _ a).
  destruct (fits16 id).
  2:{ cbn [andb]. rewrite writeUInt16LE_too_big; [reflexivity|].
      destruct (Z.leb_spec (strlen b) 0xFFFF) as [H|H]; [|exact H].
      unfold strlen in *. destruct Fb as [_ Fb]. discriminate Fb. lia. }
  rewrite (writeUInt16LE_at _ _ 0 0 (strlen b))
    by (try (now apply Fb); rewrite !length_app_Z; reflexivity).
  cbn [bind]. rewrite (app_assoc _ (u16le (strlen b))).
  rewrite (write_ascii7_at _ (repeat 0 (List.length b)))
    by (try assumption; try apply repeat_length;
        rewrite !length_app_Z; cbn; unfold strlen, Buf.length; lia).
  cbn [bind]. rewrite (app_assoc _ b).
  destruct (fits16 name).
  2:{ cbn [andb]. rewrite writeUInt16LE_too_big; [reflexivity|].
      destruct (Z.leb_spec (strlen c) 0xFFFF) as [H|H]; [|exact H].
      unfold strlen in *. destruct Fc as [_ Fc]. discriminate Fc. lia. }
  rewrite (writeUInt16LE_at _ _ 0 0 (strlen c))
    by (try (now apply Fc); rewrite !length_app_Z; cbn;
        unfold strlen, Buf.length; lia).
  cbn [bind]. rewrite (app_assoc _ (u16le (strlen c))).
  rewrite (write_ascii7_at _ (repeat 0 (List.length c)) [])
    by (try assumption; try apply repeat_length;
        rewrite !length_app_Z; cbn; unfold strlen, Buf.length; lia).
  cbn [bind andb]. rewrite app_nil_r, <- !app_assoc. reflexivity.
Qed.

(** [createKeyPayload] follows the same discipline with one field. *)
Lemma createKeyPayload_cases (key : jsstring) :
  createKeyPayload key =
    if fits16 key then Ok (key_layout key) else out_of_range.
Proof.
  unfold createKeyPayload, key_layout, field.
  pose proof (toBase64_ascii7 key) as Ak.
  pose proof (fits16_spec key) as Fk.
  set (k := toBase64 key) in *.
  change (Buf.length k) with (strlen k).
  assert (Hbuf : Buf.alloc (5 + strlen k)
                 = [0; 0; 0] ++ 0 :: 0 :: (repeat 0 (List.length k) ++ [])).
  { unfold Buf.alloc, strlen.
    replace (Z.to_nat (5 + Z.of_nat (List.length k)))
      with (5 + (List.length k + 0))%nat by lia.
    rewrite !repeat_app. reflexivity. }
  rewrite Hbuf. clear Hbuf.
  destruct (fits16 key).
  2:{ rewrite writeUInt16LE_too_big; [reflexivity|].
      destruct (Z.leb_spec (strlen k) 0xFFFF) as [H|H]; [|exact H].
      unfold strlen in *. destruct Fk as [_ Fk]. discriminate Fk. lia. }
  rewrite (writeUInt16LE_at [0; 0; 0]) by (try reflexivity; now apply Fk).
  cbn [bind]. rewrite (app_assoc [0; 0; 0]).
  rewrite (write_ascii7_at _ (repeat 0 (List.length k)) [])
    by (try assumption; try apply repeat_length;
        rewrite !length_app_Z; reflexivity).
  cbn [bind]. rewrite app_nil_r, <- !app_assoc. reflexivity.
Qed.

(** The key payload of the README's first key. *)
Example createKeyPayload_KEY_VOLDOWN :
  createKeyPayload (js "KEY_VOLDOWN")
  = Ok ([0x00; 0x00; 0x00; 0x10; 0x00] ++ js "S0VZX1ZPTERPV04=").
Proof. reflexivity. Qed.

(** C7 (as amended).  For a valid IP literal and strings whose base64 forms
    are at most 65535 bytes long each, [createAuthPayload] returns
    [64 | 00 | LL LH ip-base64 | LL LH id-base64 | LL LH name-base64]; read
    back from the payload, each little-endian 16-bit length field is the byte
    length of the base64 form that follows it, which is four bytes for every
    three bytes (rounded up) of the UTF-8 form of the original string. *)
Theorem createAuthPayload_layout (ip id name : jsstring) :
  Net.isIP ip <> 0 ->
  fits16 ip = true -> fits16 id = true -> fits16 name = true ->
  let a := toBase64 ip in
  let b := toBase64 id in
  let c := toBase64 name in
  let payload :=
    [0x64; 0x00] ++ u16le (Buf.length a) ++ a
      ++ u16le (Buf.length b) ++ b ++ u16le (Buf.length c) ++ c in
  createAuthPayload ip id name = Ok payload
  /\ Buf.readUInt16LE 2 payload = Ok (Buf.length a)
  /\ Buf.readUInt16LE (4 + Buf.length a) payload = Ok (Buf.length b)
  /\ Buf.readUInt16LE (6 + Buf.length a + Buf.length b) payload
     = Ok (Buf.length c)
  /\ Buf.length a = 4 * ((Buf.length (Buf.from_string ip) + 2) / 3)
  /\ Buf.length b = 4 * ((Buf.length (Buf.from_string id) + 2) / 3)
  /\ Buf.length c = 4 * ((Buf.length (Buf.from_string name) + 2) / 3).
Proof.
  intros Hip Fa Fb Fc a b c payload.
  apply fits16_spec in Fa, Fb, Fc. fold a in Fa. fold b in Fb. fold c in Fc.
  change (strlen a) with (Buf.length a) in Fa.
  change (strlen b) with (Buf.length b) in Fb.
  change (strlen c) with (Buf.length c) in Fc.
  split.
  { rewrite createAuthPayload_cases by assumption.
    replace (fits16 ip) with true by (symmetry; apply fits16_spec; exact Fa).
    replace (fits16 id) with true by (symmetry; apply fits16_spec; exact Fb).
    replace (fits16 name) with true by (symmetry; apply fits16_spec; exact Fc).
    cbn [andb]. unfold auth_layout, field, payload.
    rewrite <- !app_assoc. reflexivity. }
  split.
  { unfold payload. apply (readUInt16LE_at [0x64; 0]); [exact Fa|reflexivity]. }
  split.
  { unfold payload.
    rewrite (app_assoc [0x64; 0]), (app_assoc _ a).
    apply readUInt16LE_at; [exact Fb|].
    rewrite !length_app_Z, length_u16le. change (Buf.length [0x64; 0]) with 2.
    lia. }
  split.
  { unfold payload.
    rewrite (app_assoc [0x64; 0]), (app_assoc _ a), (app_assoc _ (u16le _)),
      (app_assoc _ b).
    apply readUInt16LE_at; [exact Fc|].
    rewrite !length_app_Z, !length_u16le. change (Buf.length [0x64; 0]) with 2.
    lia. }
  repeat split; apply base64_length.
Qed.

Lemma createAuthPayload_layout_witness :
  createAuthPayload (js "192.168.0.2") (js "uid") (js "remote")
  = Ok ([0x64; 0x00]
        ++ u16le 16 ++ js "MTkyLjE2OC4wLjI="
        ++ u16le 4 ++ js "dWlk"
        ++ u16le 8 ++ js "cmVtb3Rl").
Proof.
  exact (proj1 (createAuthPayload_layout
                  (js "192.168.0.2") (js "uid") (js "remote")
                  ltac:(vm_compute; discriminate)
                  ltac:(vm_compute; reflexivity)
                  ltac:(vm_compute; reflexivity)
                  ltac:(vm_compute; reflexivity))).
Defined.

(** C7, as stated, fails on a long string: the base64 form of a client id
    of 49152 characters has 65536 bytes, which no 16-bit field holds, and
    [createAuthPayload] throws instead of returning a payload. *)
Lemma createAuthPayload_long_id_throws :
  Net.isIP (js "192.168.0.2") <> 0
  /\ Buf.length (toBase64 (repeat 97 (Z.to_nat 49152))) = 65536
  /\ createAuthPayload (js "192.168.0.2") (repeat 97 (Z.to_nat 49152))
       (js "remote") = out_of_range
  /\ forall payload,
       createAuthPayload (js "192.168.0.2") (repeat 97 (Z.to_nat 49152))
         (js "remote") <> Ok payload.
Proof.
  assert (Hip : Net.isIP (js "192.168.0.2") <> 0) by (vm_compute; discriminate).
  assert (Hfit : fits16 (repeat 97 (Z.to_nat 49152)) = false)
    by (vm_compute; reflexivity).
  assert (Hthrow : createAuthPayload (js "192.168.0.2")
                     (repeat 97 (Z.to_nat 49152)) (js "remote") = out_of_range).
  { rewrite createAuthPayload_cases by exact Hip.
    rewrite Hfit, andb_false_r. reflexivity. }
  split; [exact Hip|]. split; [vm_compute; reflexivity|].
  split; [exact Hthrow|].
  intros payload. rewrite Hthrow. discriminate.
Qed.

(** ** Reading a frame *)

Lemma readUInt16LE_inv (off v : Z) (b : Buffer) :
  Buf.readUInt16LE off b = Ok v -> 0 <= off /\ off + 2 <= Buf.length b.
Proof.
  unfold Buf.readUInt16LE.
  destruct (Z.ltb_spec off 0); cbn [orb]; [discriminate|].
  destruct (Z.ltb_spec (Buf.length b) (off + 2)); [discriminate|].
  intros _. lia.
Qed.

Lemma readUInt16LE_short (off : Z) (b : Buffer) :
  Buf.length b < off + 2 -> Buf.readUInt16LE off b = out_of_range.
Proof.
  intros H. unfold Buf.readUInt16LE.
  replace (Buf.length b <? off + 2) with true by (symmetry; apply Z.ltb_lt; lia).
  now rewrite orb_true_r.
Qed.

Lemma slice_to_end (start stop : Z) (b : Buffer) :
  0 <= start <= Buf.length b -> Buf.length b <= stop ->
  Buf.slice start stop b = skipn (Z.to_nat start) b.
Proof.
  intros Hs He. unfold Buf.slice, Buf.clamp.
  replace (start <? 0) with false by (symmetry; apply Z.ltb_ge; lia).
  replace (stop <? 0) with false by (symmetry; apply Z.ltb_ge; lia).
  rewrite (Z.min_l start), (Z.min_r stop) by lia.
  apply firstn_all2. rewrite length_skipn. unfold Buf.length in *. lia.
Qed.

Lemma slice_segment (start stop : Z) (b : Buffer) :
  exists pre post, b = pre ++ Buf.slice start stop b ++ post.
Proof.
  unfold Buf.slice.
  set (s := Z.to_nat (Buf.clamp start (Buf.length b))).
  set (n := Z.to_nat (Buf.clamp stop (Buf.length b)
                      - Buf.clamp start (Buf.length b))).
  exists (firstn s b), (skipn n (skipn s b)).
  now rewrite (firstn_skipn n), (firstn_skipn s).
Qed.

(** C3 (as amended).  A frame shorter than its declared lengths: when the
    declared app-name length leaves no room for the two bytes of the payload
    length, [parseResponse] throws a range error and returns nothing; when
    the declared payload length exceeds the bytes that follow it,
    [parseResponse] does not fail: it returns the bytes that are left, fewer
    than declared.  Whatever it returns is a part of the buffer: nothing is
    read outside it. *)
Theorem parseResponse_declared_lengths (response : Buffer) (stringLen : Z) :
  Buf.readUInt16LE 1 response = Ok stringLen ->
  (Buf.length response < 5 + stringLen ->
   parseResponse response = out_of_range)
  /\ (forall payloadSize,
        Buf.readUInt16LE (3 + stringLen) response = Ok payloadSize ->
        Buf.length response - (5 + stringLen) < payloadSize ->
        parseResponse response
        = Ok (skipn (Z.to_nat (5 + stringLen)) response)
        /\ Buf.length (skipn (Z.to_nat (5 + stringLen)) response)
           = Buf.length response - (5 + stringLen)
        /\ Buf.length (skipn (Z.to_nat (5 + stringLen)) response)
           < payloadSize)
  /\ (forall payload,
        parseResponse response = Ok payload ->
        exists pre post, response = pre ++ payload ++ post).
Proof.
  intros H1. unfold parseResponse. rewrite H1. cbn [bind].
  replace (1 + (2 + stringLen)) with (3 + stringLen) by lia.
  split; [|split].
  - intros Hshort. rewrite readUInt16LE_short by lia. reflexivity.
  - intros payloadSize H2 Hover. rewrite H2. cbn [bind].
    apply readUInt16LE_inv in H2.
    replace (3 + stringLen + 2) with (5 + stringLen) by lia.
    rewrite slice_to_end by lia.
    assert (Hlen : Buf.length (skipn (Z.to_nat (5 + stringLen)) response)
                   = Buf.length response - (5 + stringLen)).
    { unfold Buf.length in *. rewrite length_skipn. lia. }
    repeat split; [exact Hlen | lia].
  - intros payload.
    destruct (Buf.readUInt16LE (3 + stringLen) response) as [payloadSize|e];
      cbn [bind]; [|discriminate].
    intros [= <-]. apply slice_segment.
Qed.

Lemma parseResponse_declared_lengths_witness :
  parseResponse [0; 9; 0; 5; 0; 1; 2] = out_of_range
  /\ parseResponse [0; 0; 0; 5; 0; 1; 2] = Ok [1; 2].
Proof.
  split.
  - exact (proj1 (parseResponse_declared_lengths [0; 9; 0; 5; 0; 1; 2] 9
                   eq_refl) ltac:(vm_compute; reflexivity)).
  - exact (proj1 (proj1 (proj2 (parseResponse_declared_lengths
                                  [0; 0; 0; 5; 0; 1; 2] 0 eq_refl))
                        5 eq_refl ltac:(vm_compute; reflexivity))).
Defined.

(** C3, as stated, fails: the frame [00 | 00 00 | 05 00 | 01 02] declares a
    payload of five bytes and holds two; [parseResponse] returns those two
    bytes and reports no error. *)
Lemma parseResponse_returns_short_payload :
  Buf.readUInt16LE 3 [0; 0; 0; 5; 0; 1; 2] = Ok 5
  /\ parseResponse [0; 0; 0; 5; 0; 1; 2] = Ok [1; 2]
  /\ Buf.length [1; 2] < 5.
Proof.
  repeat split; vm_compute; reflexivity.
Qed.

(** ** Promises *)

Lemma nth_error_set_nth {A : Type} (l : list A) (n m : nat) (x : A) :
  nth_error (set_nth n x l) m =
    if Nat.eqb m n
    then match nth_error l m with Some _ => Some x | None => None end
    else nth_error l m.
Proof.
  revert n m. induction l as [|y l IH]; intros [|n] [|m]; cbn; auto.
  now destruct (Nat.eqb m n).
Qed.

Lemma length_set_nth {A : Type} (l : list A) (n : nat) (x : A) :
  List.length (set_nth n x l) = List.length l.
Proof.
  revert n. induction l as [|y l IH]; intros [|n]; cbn; auto.
Qed.

Lemma state_of_settle (p q : promise) (s : promise_state) (st : client) :
  state_of (settle p s st) q =
    if Nat.eqb q p
    then match state_of st q with Some Pending => Some s | o => o end
    else state_of st q.
Proof.
  unfold settle.
  destruct (state_of st p) as [[| |]|] eqn:E; unfold state_of in *;
    cbn [promises with_promises]; rewrite ?nth_error_set_nth;
    destruct (Nat.eqb_spec q p); subst; rewrite ?E; auto.
Qed.

Lemma settle_frame (p : promise) (s : promise_state) (st : client) :
  delay (settle p s st) = delay st
  /\ calls (settle p s st) = calls st
  /\ on_connect (settle p s st) = on_connect st
  /\ on_error (settle p s st) = on_error st
  /\ on_data (settle p s st) = on_data st
  /\ timers (settle p s st) = timers st
  /\ uncaught (settle p s st) = uncaught st
  /\ List.length (promises (settle p s st)) = List.length (promises st).
Proof.
  unfold settle. destruct (state_of st p) as [[| |]|]; cbn; repeat split; auto.
  apply length_set_nth.
Qed.

Lemma state_of_fresh (st : client) :
  state_of (snd (new_promise st)) (fst (new_promise st)) = Some Pending.
Proof.
  unfold new_promise, state_of. cbn.
  now rewrite nth_error_app2, Nat.sub_diag by lia.
Qed.

Lemma state_of_old (st : client) (p : promise) (s : promise_state) :
  state_of st p = Some s -> state_of (snd (new_promise st)) p = Some s.
Proof.
  unfold new_promise, state_of. cbn. intros H.
  rewrite nth_error_app1; [exact H|]. apply nth_error_Some. congruence.
Qed.

Lemma state_of_known (st : client) (p : promise) (s : promise_state) :
  state_of st p = Some s -> known st p.
Proof.
  unfold state_of, known. intros H. apply nth_error_Some. congruence.
Qed.

(** ** [net.isIP] on some literals *)

Example isIP_examples :
  map (fun s => Net.isIP (js s))
    ["192.168.0.10"; "999.999.999.999"; "01.2.3.4"; "1.2.3"; "";
     "::1"; "fe80::1%eth0"; "2001:db8::ff00:42:8329"; "::ffff:1.2.3.4";
     "1:2:3:4:5:6:7"; "g::1"]%string
  = [4; 0; 0; 0; 0; 6; 6; 6; 6; 0; 0].
Proof. vm_compute. reflexivity. Qed.

(** ** [connect] *)

(** C2, on the code.  When [net.isIP(ip)] is 0 the promise of [connect] is
    rejected with 'Not a valid IP', and the executor goes on all the same:
    [socket.connect(55000, ip, resolve)] is called and the error listener is
    installed.  The rejection does not come before the socket operation is
    attempted; the guard has no [return]. *)
Theorem connect_invalid_address_reaches_socket (ip : jsstring) (st : client) :
  Net.isIP ip = 0 ->
  state_of (snd (connect ip st)) (fst (connect ip st))
  = Some (Rejected (Error "Not a valid IP"))
  /\ calls (snd (connect ip st)) = calls st ++ [SockConnect 55000 ip]
  /\ on_connect (snd (connect ip st))
     = on_connect st ++ [fst (connect ip st)]
  /\ on_error (snd (connect ip st)) = on_error st ++ [fst (connect ip st)].
Proof.
  intros H. unfold connect. rewrite H. cbn [Z.eqb].
  pose proof (state_of_fresh st) as Hf.
  destruct (new_promise st) as [p st1] eqn:E. cbn [fst snd] in *.
  destruct (settle_frame p (Rejected (Error "Not a valid IP")) st1)
    as (_ & Hc & Hoc & Hoe & _).
  assert (E1 : st1 = snd (new_promise st)) by now rewrite E.
  repeat split.
  - unfold state_of in *. cbn. fold (state_of (reject p (Error "Not a valid IP") st1) p).
    unfold reject. rewrite state_of_settle, Nat.eqb_refl.
    unfold state_of. now rewrite Hf.
  - cbn. unfold reject. rewrite Hc, E1. reflexivity.
  - cbn. unfold reject. rewrite Hoc, E1. reflexivity.
  - cbn. unfold reject. rewrite Hoe, E1. reflexivity.
Qed.

Lemma connect_invalid_address_reaches_socket_witness :
  state_of (snd (connect (js "999.999.999.999") (constructor None))) 0%nat
  = Some (Rejected (Error "Not a valid IP"))
  /\ calls (snd (connect (js "999.999.999.999") (constructor None)))
     = [SockConnect 55000 (js "999.999.999.999")].
Proof.
  pose proof (connect_invalid_address_reaches_socket
                (js "999.999.999.999") (constructor None) eq_refl) as H.
  split; [exact (proj1 H) | exact (proj1 (proj2 H))].
Defined.

(** On a valid address the promise stays pending until the socket reports
    the connection, and the same socket call is made. *)
Lemma connect_valid_address (ip : jsstring) (st : client) :
  Net.isIP ip <> 0 ->
  state_of (snd (connect ip st)) (fst (connect ip st)) = Some Pending
  /\ calls (snd (connect ip st)) = calls st ++ [SockConnect 55000 ip].
Proof.
  intros H. unfold connect.
  replace (Net.isIP ip =? 0) with false by (symmetry; now apply Z.eqb_neq).
  pose proof (state_of_fresh st) as Hf.
  destruct (new_promise st) as [p st1] eqn:E. cbn [fst snd] in *.
  split; [exact Hf|].
  replace st1 with (snd (new_promise st)) by now rewrite E.
  reflexivity.
Qed.

(** ** [send], [sendMessage], [sendMessageByPayload] *)

Lemma send_spec (buffer : Buffer) (flushed : bool) (st : client) :
  state_of (snd (send buffer flushed st)) (fst (send buffer flushed st))
  = Some (Fulfilled (VBool flushed))
  /\ calls (snd (send buffer flushed st)) = calls st ++ [SockWrite buffer]
  /\ (forall p s, state_of st p = Some s ->
        state_of (snd (send buffer flushed st)) p = Some s)
  /\ on_connect (snd (send buffer flushed st)) = on_connect st
  /\ on_error (snd (send buffer flushed st)) = on_error st
  /\ on_data (snd (send buffer flushed st)) = on_data st
  /\ timers (snd (send buffer flushed st)) = timers st
  /\ delay (snd (send buffer flushed st)) = delay st
  /\ List.length (promises (snd (send buffer flushed st)))
     = S (List.length (promises st)).
Proof.
  unfold send, resolve.
  pose proof (state_of_fresh st) as Hf.
  pose proof (fun p s => state_of_old st p s) as Ho.
  destruct (new_promise st) as [p st1] eqn:E. cbn [fst snd] in *.
  assert (E1 : st1 = snd (new_promise st)) by now rewrite E.
  assert (Ep : p = List.length (promises st))
    by (unfold new_promise in E; congruence).
  set (st2 := socket_do (SockWrite buffer) st1).
  destruct (settle_frame p (Fulfilled (VBool flushed)) st2)
    as (Hd & Hc & Hoc & Hoe & Hod & Ht & _ & Hl).
  rewrite Hd, Hc, Hoc, Hoe, Hod, Ht, Hl. subst st2. cbn.
  repeat split; try (rewrite E1; cbn; auto; fail).
  - rewrite state_of_settle, Nat.eqb_refl.
    change (state_of (socket_do (SockWrite buffer) st1) p)
      with (state_of st1 p). now rewrite Hf.
  - intros q s Hq. rewrite state_of_settle.
    change (state_of (socket_do (SockWrite buffer) st1) q)
      with (state_of st1 q).
    rewrite (Ho q s Hq). destruct (Nat.eqb_spec q p) as [->|]; [|reflexivity].
    apply state_of_known in Hq. unfold known in Hq. lia.
  - rewrite E1. cbn. rewrite length_app. cbn. lia.
Qed.

Lemma sendMessage_spec (message : Buffer) (d : option Z) (flushed : bool)
    (st : client) :
  let q := fst (sendMessage message d flushed st) in
  let st' := snd (sendMessage message d flushed st) in
  q = List.length (promises st)
  /\ state_of st' q = Some Pending
  /\ calls st' = calls st ++ [SockWrite message]
  /\ timers st' = timers st ++ [(q, js_or (default d (delay st)) (delay st))]
  /\ on_connect st' = on_connect st
  /\ on_error st' = on_error st
  /\ on_data st' = on_data st
  /\ List.length (promises st') = S (S (List.length (promises st)))
  /\ (forall p s, state_of st p = Some s -> state_of st' p = Some s).
Proof.
  unfold sendMessage.
  pose proof (state_of_fresh st) as Hf.
  pose proof (fun p s => state_of_old st p s) as Ho.
  destruct (new_promise st) as [q st1] eqn:E. cbn [fst snd] in *.
  assert (E1 : st1 = snd (new_promise st)) by now rewrite E.
  assert (Eq : q = List.length (promises st))
    by (unfold new_promise in E; congruence).
  destruct (send_spec message flushed st1)
    as (_ & Hc & Hs & Hoc & Hoe & Hod & Ht & Hd & Hl).
  destruct (send message flushed st1) as [p st2]. cbn [fst snd] in *.
  cbn. rewrite Hc, Hoc, Hoe, Hod, Ht, Hd, Hl.
  repeat split; try (rewrite E1; cbn; auto; fail).
  - exact Eq.
  - apply (Hs q Pending Hf).
  - rewrite E1. cbn. rewrite length_app. cbn. lia.
  - intros r s Hr. apply (Hs r s). now apply Ho.
Qed.

(** C10.  The delay that [sendMessage] hands to [setTimeout] is
    [delay || this.delay]: the per-message delay when it is not zero, the
    delay of the constructor otherwise.  An explicit 0 does not override a
    nonzero default, and an omitted delay is the default too. *)
Theorem sendMessage_effective_delay (message : Buffer) (d : Z)
    (flushed : bool) (st : client) :
  timers (snd (sendMessage message (Some d) flushed st))
  = timers st ++ [(fst (sendMessage message (Some d) flushed st),
                   if d =? 0 then delay st else d)]
  /\ timers (snd (sendMessage message (Some 0) flushed st))
     = timers st ++ [(fst (sendMessage message (Some 0) flushed st),
                      delay st)]
  /\ timers (snd (sendMessage message None flushed st))
     = timers st ++ [(fst (sendMessage message None flushed st), delay st)].
Proof.
  repeat split.
  - apply (sendMessage_spec message (Some d) flushed st).
  - apply (sendMessage_spec message (Some 0) flushed st).
  - destruct (sendMessage_spec message None flushed st)
      as (_ & _ & _ & Ht & _).
    rewrite Ht. unfold default, js_or. now destruct (delay st =? 0).
Qed.

(** A delay of 0 cannot switch off a default of, say, 500 ms for one
    message. *)
Example zero_delay_keeps_default :
  timers (snd (sendMessage [0] (Some 0) true (constructor (Some 500))))
  = [(0%nat, 500)].
Proof. reflexivity. Qed.

Lemma timer_fires (st : client) (q : promise) (ms : Z) (before : list (promise * Z)) :
  timers st = before ++ [(q, ms)] ->
  state_of st q = Some Pending ->
  state_of (step (EvTimer (List.length before)) st) q
  = Some (Fulfilled VUndefined).
Proof.
  intros Ht Hq. unfold step.
  rewrite Ht, nth_error_app2, Nat.sub_diag by lia. cbn [nth_error].
  unfold resolve. rewrite state_of_settle, Nat.eqb_refl.
  change (state_of (clear_timer (List.length before) st) q)
    with (state_of st q). now rewrite Hq.
Qed.

(** C4 (as amended).  The client keeps no session state and checks none:
    in every state, also before any [authenticate], sending a payload that
    [createMessage] can frame is not refused.  The frame is written to the
    socket, the returned promise is pending and is fulfilled when its timer
    expires. *)
Theorem sendMessageByPayload_any_state (payload message : Buffer)
    (d : option Z) (flushed : bool) (st : client) :
  createMessage payload = Ok message ->
  exists q st',
    sendMessageByPayload payload d flushed st = Ok (q, st')
    /\ calls st' = calls st ++ [SockWrite message]
    /\ state_of st' q = Some Pending
    /\ state_of (step (EvTimer (List.length (timers st))) st') q
       = Some (Fulfilled VUndefined).
Proof.
  intros Hm. unfold sendMessageByPayload. rewrite Hm. cbn [bind].
  destruct (sendMessage_spec message (Some (default d (delay st))) flushed st)
    as (_ & Hq & Hc & Ht & _).
  destruct (sendMessage message (Some (default d (delay st))) flushed st)
    as [q st'] eqn:E. cbn [fst snd] in *.
  exists q, st'. repeat split; auto.
  eapply timer_fires; eauto.
Qed.

Lemma sendMessageByPayload_any_state_witness :
  exists q st',
    sendMessageByPayload example_key_payload None true example_connected
    = Ok (q, st')
    /\ calls st' = calls example_connected
                   ++ [SockWrite (envelope_layout example_key_payload)]
    /\ state_of st' q = Some Pending
    /\ state_of (step (EvTimer 0) st') q = Some (Fulfilled VUndefined).
Proof.
  exact (sendMessageByPayload_any_state example_key_payload
           (envelope_layout example_key_payload) None true
           example_connected eq_refl).
Defined.

(** C4, as stated, fails: on a client that is connected and has never called
    [authenticate], sending the key payload of KEY_VOLDOWN writes its frame
    to the socket, and the promise is fulfilled; nothing is rejected. *)
Lemma key_sent_before_authenticate :
  on_data example_connected = []
  /\ exists q st',
       sendMessageByPayload example_key_payload None true example_connected
       = Ok (q, st')
       /\ calls st' = [SockConnect 55000 (js "192.168.0.10");
                       SockWrite (frame_of example_key_payload)]
       /\ state_of (step (EvTimer 0) st') q = Some (Fulfilled VUndefined)
       /\ forall p e, state_of (step (EvTimer 0) st') p <> Some (Rejected e).
Proof.
  split; [reflexivity|].
  eexists. eexists. split; [vm_compute; reflexivity|].
  split; [vm_compute; reflexivity|].
  split; [vm_compute; reflexivity|].
  intros [|[|[|[|p]]]] e; vm_compute; discriminate.
Qed.

(** ** What the events can do to a promise *)

Lemma not_rejected_resolve (st : client) (p q : promise) (v : value) :
  not_rejected st q -> not_rejected (resolve p v st) q.
Proof.
  unfold not_rejected, resolve. intros H e. rewrite state_of_settle.
  destruct (Nat.eqb q p); [|apply H].
  specialize (H e). destruct (state_of st q) as [[| |]|]; congruence.
Qed.

Lemma state_of_settle_other (st : client) (p q : promise) (s : promise_state) :
  p <> q -> state_of (settle p s st) q = state_of st q.
Proof.
  intros H. rewrite state_of_settle.
  destruct (Nat.eqb_spec q p); congruence.
Qed.

Lemma fold_resolve_frame (ls : list promise) (v : value) (st : client) :
  on_error (fold_left (fun s p => resolve p v s) ls st) = on_error st
  /\ on_data (fold_left (fun s p => resolve p v s) ls st) = on_data st
  /\ forall q, not_rejected st q ->
       not_rejected (fold_left (fun s p => resolve p v s) ls st) q.
Proof.
  revert st. induction ls as [|p ls IH]; intros st; cbn [fold_left]; auto.
  destruct (IH (resolve p v st)) as (He & Hd & Hn).
  destruct (settle_frame p (Fulfilled v) st) as (_ & _ & _ & Hoe & Hod & _).
  unfold resolve in *. rewrite He, Hd, Hoe, Hod. repeat split.
  intros q Hq. apply Hn. now apply not_rejected_resolve.
Qed.

Lemma fold_reject_frame (ls : list promise) (e : exn) (st : client) :
  on_error (fold_left (fun s p => reject p e s) ls st) = on_error st
  /\ on_data (fold_left (fun s p => reject p e s) ls st) = on_data st
  /\ forall q, ~ In q ls ->
       state_of (fold_left (fun s p => reject p e s) ls st) q = state_of st q.
Proof.
  revert st. induction ls as [|p ls IH]; intros st; cbn [fold_left]; auto.
  destruct (IH (reject p e st)) as (He & Hd & Hn).
  destruct (settle_frame p (Rejected e) st) as (_ & _ & _ & Hoe & Hod & _).
  unfold reject in *. rewrite He, Hd, Hoe, Hod. repeat split.
  intros q Hq. rewrite Hn by (intros Hin; apply Hq; now right).
  apply state_of_settle_other. intros ->. apply Hq. now left.
Qed.

Lemma auth_listener_cases (p : promise) (data : Buffer) (st st' : client) :
  auth_listener p data st = Ok st' ->
  st' = st \/ exists s, st' = settle p s st.
Proof.
  unfold auth_listener. destruct (parseResponse data) as [payload|e];
    cbn [bind]; [|discriminate].
  destruct (_ =? 0).
  { intros [= <-]. right. eexists. reflexivity. }
  destruct (_ =? 0).
  { intros [= <-]. right. eexists. reflexivity. }
  destruct (_ =? 0).
  { intros [= <-]. right. eexists. reflexivity. }
  intros [= <-]. now left.
Qed.

Lemma emit_data_frame (ls : list promise) (data : Buffer) (st : client) :
  on_error (emit_data ls data st) = on_error st
  /\ on_data (emit_data ls data st) = on_data st
  /\ forall q, ~ In q ls ->
       state_of (emit_data ls data st) q = state_of st q.
Proof.
  revert st. induction ls as [|p ls IH]; intros st; cbn [emit_data]; auto.
  destruct (auth_listener p data st) as [st'|e] eqn:E; [|cbn; auto].
  destruct (IH st') as (He & Hd & Hn). rewrite He, Hd.
  apply auth_listener_cases in E. destruct E as [->|[s ->]].
  - repeat split. intros q Hq. apply Hn. intros Hin. apply Hq. now right.
  - destruct (settle_frame p s st) as (_ & _ & _ & Hoe & Hod & _).
    rewrite Hoe, Hod. repeat split.
    intros q Hq. rewrite Hn by (intros Hin; apply Hq; now right).
    apply state_of_settle_other. intros ->. apply Hq. now left.
Qed.

Lemma step_out_of_reach (ev : event) (st : client) (q : promise) :
  out_of_reach st q -> out_of_reach (step ev st) q.
Proof.
  intros (Hn & He & Hd). unfold out_of_reach, step.
  destruct ev as [|e|data|k].
  - destruct (fold_resolve_frame (on_connect st) VUndefined
                (clear_on_connect st)) as (Hoe & Hod & Hq).
    rewrite Hoe, Hod. split; [apply Hq; exact Hn | split; assumption].
  - destruct (on_error st) as [|p ls] eqn:E.
    { split; [exact Hn | split; [|exact Hd]].
      cbn [on_error throw_uncaught]. now rewrite E. }
    destruct (fold_reject_frame (p :: ls) e st) as (Hoe & Hod & Hq).
    rewrite Hoe, Hod, E.
    split; [|split; assumption].
    intros e'. rewrite Hq by assumption. apply Hn.
  - destruct (emit_data_frame (on_data st) data st) as (Hoe & Hod & Hq).
    rewrite Hoe, Hod. split; [|split; assumption].
    intros e'. rewrite Hq by assumption. apply Hn.
  - destruct (nth_error (timers st) k) as [[p ms]|];
      [|split; [exact Hn | split; assumption]].
    destruct (settle_frame p (Fulfilled VUndefined) (clear_timer k st))
      as (_ & _ & _ & Hoe & Hod & _).
    unfold resolve. rewrite Hoe, Hod. split; [|split; assumption].
    apply (not_rejected_resolve (clear_timer k st)). exact Hn.
Qed.

Lemma run_out_of_reach (evs : list event) (st : client) (q : promise) :
  out_of_reach st q -> out_of_reach (run evs st) q.
Proof.
  revert st. induction evs as [|ev evs IH]; intros st H; [exact H|].
  cbn. apply IH. now apply step_out_of_reach.
Qed.

Lemma wf_fresh_unknown (st : client) (ls : list promise) :
  Forall (known st) ls -> ~ In (List.length (promises st)) ls.
Proof.
  intros H Hin. rewrite Forall_forall in H. apply H in Hin.
  unfold known in Hin. lia.
Qed.

(** ** Every reachable state is well formed *)

Lemma same_shape_refl (st : client) : same_shape st st.
Proof. now repeat split. Qed.

Lemma same_shape_trans (st1 st2 st3 : client) :
  same_shape st1 st2 -> same_shape st2 st3 -> same_shape st1 st3.
Proof.
  intros (A1 & A2 & A3 & A4 & A5) (B1 & B2 & B3 & B4 & B5).
  repeat split; congruence.
Qed.

Lemma settle_shape (p : promise) (s : promise_state) (st : client) :
  same_shape st (settle p s st).
Proof.
  destruct (settle_frame p s st) as (_ & _ & H1 & H2 & H3 & H4 & _ & H5).
  now repeat split.
Qed.

Lemma fold_resolve_shape (ls : list promise) (v : value) (st : client) :
  same_shape st (fold_left (fun s p => resolve p v s) ls st).
Proof.
  revert st. induction ls as [|p ls IH]; intros st; cbn [fold_left].
  - apply same_shape_refl.
  - eapply same_shape_trans; [apply (settle_shape p (Fulfilled v))|apply IH].
Qed.

Lemma fold_reject_shape (ls : list promise) (e : exn) (st : client) :
  same_shape st (fold_left (fun s p => reject p e s) ls st).
Proof.
  revert st. induction ls as [|p ls IH]; intros st; cbn [fold_left].
  - apply same_shape_refl.
  - eapply same_shape_trans; [apply (settle_shape p (Rejected e))|apply IH].
Qed.

Lemma emit_data_shape (ls : list promise) (data : Buffer) (st : client) :
  same_shape st (emit_data ls data st).
Proof.
  revert st. induction ls as [|p ls IH]; intros st; cbn [emit_data].
  - apply same_shape_refl.
  - destruct (auth_listener p data st) as [st'|e] eqn:E.
    + apply auth_listener_cases in E. destruct E as [->|[s ->]]; [apply IH|].
      eapply same_shape_trans; [apply settle_shape|apply IH].
    + now repeat split.
Qed.

Lemma wf_same_shape (st st' : client) : same_shape st st' -> wf st -> wf st'.
Proof.
  intros (H1 & H2 & H3 & H4 & H5) (W1 & W2 & W3 & W4).
  unfold wf, known in *. rewrite H1, H2, H3, H4, H5. now repeat split.
Qed.

Lemma known_more (n : nat) (st st' : client) (ls : list promise) :
  List.length (promises st') = (n + List.length (promises st))%nat ->
  Forall (known st) ls -> Forall (known st') ls.
Proof.
  intros H. apply Forall_impl. unfold known. lia.
Qed.

Lemma wf_constructor (d : option Z) : wf (constructor d).
Proof. repeat split; constructor. Qed.

Lemma in_remove_nth {A : Type} (k : nat) (l : list A) (x : A) :
  In x (remove_nth k l) -> In x l.
Proof.
  revert k. induction l as [|y l IH]; intros [|k]; cbn; auto.
  intros [->|H]; [now left|right; eauto].
Qed.

Lemma wf_step (ev : event) (st : client) : wf st -> wf (step ev st).
Proof.
  intros W. destruct ev as [|e|data|k]; cbn [step].
  - apply (wf_same_shape (clear_on_connect st)); [apply fold_resolve_shape|].
    destruct W as (_ & W2 & W3 & W4). repeat split; auto.
  - destruct (on_error st) as [|p ls]; [exact W|].
    apply (wf_same_shape st); [apply fold_reject_shape|exact W].
  - apply (wf_same_shape st); [apply emit_data_shape|exact W].
  - destruct (nth_error (timers st) k) as [[p ms]|]; [|exact W].
    apply (wf_same_shape (clear_timer k st)); [apply settle_shape|].
    destruct W as (W1 & W2 & W3 & W4). repeat split; auto.
    cbn [timers clear_timer]. rewrite Forall_forall in *.
    intros q Hq. apply in_map_iff in Hq. destruct Hq as ([q' ms'] & <- & Hq).
    apply W4. apply in_map_iff. exists (q', ms'). split; [reflexivity|].
    now apply in_remove_nth in Hq.
Qed.

Lemma wf_new_promise (st : client) :
  wf st ->
  wf (snd (new_promise st)) /\ known (snd (new_promise st)) (fst (new_promise st)).
Proof.
  intros (W1 & W2 & W3 & W4). unfold new_promise, wf, known. cbn.
  rewrite length_app. cbn.
  repeat split; try lia;
    (eapply Forall_impl; [|eassumption]); unfold known; cbn; intros; lia.
Qed.

Lemma wf_connect (ip : jsstring) (st : client) :
  wf st -> wf (snd (connect ip st)).
Proof.
  intros W. unfold connect.
  destruct (wf_new_promise st W) as (W1 & K).
  destruct (new_promise st) as [p st1]. cbn [fst snd] in *.
  set (st2 := if Net.isIP ip =? 0
              then reject p (Error "Not a valid IP") st1 else st1).
  assert (S2 : same_shape st1 st2).
  { subst st2. destruct (_ =? 0); [apply settle_shape|apply same_shape_refl]. }
  pose proof (wf_same_shape _ _ S2 W1) as (A1 & A2 & A3 & A4).
  assert (K2 : known st2 p).
  { destruct S2 as (_ & _ & _ & _ & L). unfold known in *. now rewrite L. }
  cbn. repeat split; auto; apply Forall_app; split; auto.
Qed.

Lemma wf_authenticate (ip id name : jsstring) (st : client) :
  wf st -> wf (snd (authenticate ip id name st)).
Proof.
  intros W. unfold authenticate.
  destruct (wf_new_promise st W) as (W1 & K).
  destruct (new_promise st) as [p st1]. cbn [fst snd] in *.
  set (st2 := if Net.isIP ip =? 0
              then reject p (Error "Not a valid IP") st1 else st1).
  assert (S2 : same_shape st1 st2).
  { subst st2. destruct (_ =? 0); [apply settle_shape|apply same_shape_refl]. }
  pose proof (wf_same_shape _ _ S2 W1) as W2.
  assert (K2 : known st2 p).
  { destruct S2 as (_ & _ & _ & _ & L). unfold known in *. now rewrite L. }
  destruct (payload <- createAuthPayload ip id name ;; createMessage payload)
    as [message|e]; cbn [snd].
  - destruct W2 as (A1 & A2 & A3 & A4).
    repeat split; auto. cbn. apply Forall_app. split; auto.
  - apply (wf_same_shape st2); [apply settle_shape|exact W2].
Qed.

Lemma wf_send (buffer : Buffer) (flushed : bool) (st : client) :
  wf st -> wf (snd (send buffer flushed st)).
Proof.
  intros (W1 & W2 & W3 & W4).
  destruct (send_spec buffer flushed st)
    as (_ & _ & _ & H1 & H2 & H3 & H4 & _ & H5).
  unfold wf. rewrite H1, H2, H3, H4.
  repeat split; eapply (known_more 1); eauto.
Qed.

Lemma wf_sendMessage (message : Buffer) (d : option Z) (flushed : bool)
    (st : client) :
  wf st -> wf (snd (sendMessage message d flushed st)).
Proof.
  intros (W1 & W2 & W3 & W4).
  destruct (sendMessage_spec message d flushed st)
    as (Hq & _ & _ & H4 & H1 & H2 & H3 & H5 & _).
  unfold wf. rewrite H1, H2, H3, H4.
  repeat split; try (eapply (known_more 2); eauto; fail).
  rewrite map_app. apply Forall_app. split.
  - eapply (known_more 2); eauto.
  - cbn [map fst]. constructor; [|constructor]. unfold known.
    rewrite H5, Hq. lia.
Qed.

Lemma reachable_wf (st : client) : reachable st -> wf st.
Proof.
  induction 1.
  - apply wf_constructor.
  - now apply wf_connect.
  - now apply wf_authenticate.
  - now apply wf_send.
  - now apply wf_sendMessage.
  - now apply wf_step.
Qed.

(** C8 (as amended).  The send operations never reject.  The promise of
    [send] is fulfilled with the boolean that [socket.write] returned, so a
    refused write is at most the value [false] of a fulfilled promise; the
    promise of [sendMessage] drops even that value, and whatever the socket
    does after the write (an 'error' event included) no event ever rejects
    it.  A failed write is not reported to the caller of the key-send
    operation. *)
Theorem sendMessage_never_rejects (message : Buffer) (d : option Z)
    (flushed : bool) (st : client) (evs : list event) :
  wf st ->
  state_of (snd (send message flushed st)) (fst (send message flushed st))
  = Some (Fulfilled (VBool flushed))
  /\ calls (snd (sendMessage message d flushed st))
     = calls st ++ [SockWrite message]
  /\ state_of (snd (sendMessage message d flushed st))
       (fst (sendMessage message d flushed st)) = Some Pending
  /\ state_of
       (step (EvTimer (List.length (timers st)))
          (snd (sendMessage message d flushed st)))
       (fst (sendMessage message d flushed st))
     = Some (Fulfilled VUndefined)
  /\ forall e,
       state_of (run evs (snd (sendMessage message d flushed st)))
         (fst (sendMessage message d flushed st)) <> Some (Rejected e).
Proof.
  intros (_ & Hwe & Hwd & _).
  split; [exact (proj1 (send_spec message flushed st))|].
  destruct (sendMessage_spec message d flushed st)
    as (Hq & Hp & Hc & Ht & _ & Hoe & Hod & _).
  split; [exact Hc|]. split; [exact Hp|].
  split; [eapply timer_fires; eauto|].
  refine (proj1 (run_out_of_reach evs _ _ _)).
  split; [|split].
  - intros e. rewrite Hp. discriminate.
  - rewrite Hoe, Hq. now apply wf_fresh_unknown.
  - rewrite Hod, Hq. now apply wf_fresh_unknown.
Qed.

Lemma example_connected_wf : wf example_connected.
Proof.
  repeat split; repeat constructor.
Defined.

Lemma sendMessage_never_rejects_witness :
  state_of
    (snd (sendMessage (frame_of example_key_payload) None false
            example_connected))
    (fst (sendMessage (frame_of example_key_payload) None false
            example_connected))
  = Some Pending
  /\ state_of
       (run [EvError (Error "write EPIPE"); EvTimer 0]
          (snd (sendMessage (frame_of example_key_payload) None false
                  example_connected)))
       (fst (sendMessage (frame_of example_key_payload) None false
               example_connected))
     <> Some (Rejected (Error "write EPIPE")).
Proof.
  pose proof (sendMessage_never_rejects (frame_of example_key_payload) None
                false example_connected
                [EvError (Error "write EPIPE"); EvTimer 0]
                example_connected_wf) as (_ & _ & Hp & _ & Hn).
  split; [exact Hp | exact (Hn (Error "write EPIPE"))].
Defined.

(** C8, as stated, fails: the key payload of KEY_VOLDOWN is sent on a
    connected client, [socket.write] returns [false] and the socket then
    emits 'error' (write EPIPE).  The only error listener is the [reject] of
    the promise of [connect], settled long ago; the promise of the key send
    is fulfilled when its timer expires, as after a successful write, and no
    promise of the client is rejected. *)
Lemma failed_write_is_swallowed :
  exists q st',
    sendMessageByPayload example_key_payload None false example_connected
    = Ok (q, st')
    /\ state_of (run [EvError (Error "write EPIPE"); EvTimer 0] st') q
       = Some (Fulfilled VUndefined)
    /\ uncaught (run [EvError (Error "write EPIPE"); EvTimer 0] st') = []
    /\ forall p e,
         state_of (run [EvError (Error "write EPIPE"); EvTimer 0] st') p
         <> Some (Rejected e).
Proof.
  eexists. eexists. split; [vm_compute; reflexivity|].
  split; [vm_compute; reflexivity|].
  split; [vm_compute; reflexivity|].
  intros [|[|[|[|p]]]] e; vm_compute; discriminate.
Qed.

(** ** The handshake *)

Lemma compare_eq (a b : Buffer) : Buf.compare a b = 0 <-> a = b.
Proof.
  revert b. induction a as [|x a IH]; intros [|y b]; cbn [Buf.compare];
    try (split; [discriminate|discriminate]); [tauto|].
  destruct (Z.ltb_spec x y); [split; [discriminate|intros [= -> _]; lia]|].
  destruct (Z.ltb_spec y x); [split; [discriminate|intros [= -> _]; lia]|].
  assert (x = y) by lia. subst y. rewrite IH.
  split; [now intros ->|now intros [= ->]].
Qed.

Lemma compare_neq (a b : Buffer) : a <> b -> (Buf.compare a b =? 0) = false.
Proof.
  intros H. apply Z.eqb_neq. now rewrite compare_eq.
Qed.

Lemma auth_listener_granted (p : promise) (data : Buffer) (st : client) :
  parseResponse data = Ok [0x64; 0x00; 0x01; 0x00] ->
  auth_listener p data st
  = Ok (settle p (Fulfilled (VString "Success")) st).
Proof. intros H. unfold auth_listener. now rewrite H. Qed.

Lemma auth_listener_denied (p : promise) (data : Buffer) (st : client) :
  parseResponse data = Ok [0x64; 0x00; 0x00; 0x00] ->
  auth_listener p data st
  = Ok (settle p (Rejected (Error "Access denied")) st).
Proof. intros H. unfold auth_listener. now rewrite H. Qed.

Lemma auth_listener_timeout (p : promise) (data : Buffer) (st : client) :
  parseResponse data = Ok [0x65; 0x00] ->
  auth_listener p data st = Ok (settle p (Rejected (Error "Timeout")) st).
Proof. intros H. unfold auth_listener. now rewrite H. Qed.

Lemma auth_listener_unclassified (p : promise) (data : Buffer) (st : client) :
  unclassified data -> auth_listener p data st = Ok st.
Proof.
  intros (payload & H & Hg & Hd & Ht). unfold auth_listener.
  rewrite H. cbn [bind].
  now rewrite !compare_neq by assumption.
Qed.

(** When every listener settles its promise to [s], a data event brings
    each pending promise that has a listener to [s], and leaves the settled
    ones as they are. *)
Lemma emit_data_keeps_settled (ls : list promise) (data : Buffer)
    (s s' : promise_state) :
  (forall p st, auth_listener p data st = Ok (settle p s st)) ->
  s' <> Pending ->
  forall st q, state_of st q = Some s' ->
    state_of (emit_data ls data st) q = Some s'.
Proof.
  intros Hl Hs. induction ls as [|p ls IH]; intros st q Hq; [exact Hq|].
  cbn [emit_data]. rewrite Hl. apply IH.
  rewrite state_of_settle, Hq.
  destruct (Nat.eqb q p); [|reflexivity]. now destruct s'.
Qed.

Lemma emit_data_settles (ls : list promise) (data : Buffer)
    (s : promise_state) :
  (forall p st, auth_listener p data st = Ok (settle p s st)) ->
  s <> Pending ->
  forall st q, state_of st q = Some Pending -> In q ls ->
    state_of (emit_data ls data st) q = Some s.
Proof.
  intros Hl Hs. induction ls as [|p ls IH]; intros st q Hq Hin; [destruct Hin|].
  cbn [emit_data]. rewrite Hl.
  destruct (Nat.eq_dec p q) as [->|Hpq].
  - apply (emit_data_keeps_settled ls data s s Hl Hs).
    now rewrite state_of_settle, Nat.eqb_refl, Hq.
  - apply IH; [|destruct Hin; congruence].
    now rewrite state_of_settle_other.
Qed.

Lemma emit_data_ignored (ls : list promise) (data : Buffer) (st : client) :
  (forall p, auth_listener p data st = Ok st) ->
  emit_data ls data st = st.
Proof.
  intros Hl. induction ls as [|p ls IH]; [reflexivity|].
  cbn [emit_data]. now rewrite Hl.
Qed.

(** A call of [authenticate] on a valid address leaves its promise pending,
    with the auth frame written and the data listener installed. *)
Lemma authenticate_pending (ip id name : jsstring) (payload message : Buffer)
    (st : client) :
  Net.isIP ip <> 0 ->
  createAuthPayload ip id name = Ok payload ->
  createMessage payload = Ok message ->
  state_of (snd (authenticate ip id name st)) (fst (authenticate ip id name st))
  = Some Pending
  /\ In (fst (authenticate ip id name st))
        (on_data (snd (authenticate ip id name st)))
  /\ calls (snd (authenticate ip id name st)) = calls st ++ [SockWrite message].
Proof.
  intros Hip Hp Hm. unfold authenticate.
  replace (Net.isIP ip =? 0) with false by (symmetry; now apply Z.eqb_neq).
  rewrite Hp. cbn [bind]. rewrite Hm.
  pose proof (state_of_fresh st) as Hf.
  destruct (new_promise st) as [p st1] eqn:E. cbn [fst snd] in *.
  replace st1 with (snd (new_promise st)) in * by now rewrite E.
  split; [exact Hf|]. split; [|reflexivity].
  cbn. apply in_or_app. right. now left.
Qed.

(** C5.  While the promise of an [authenticate] call is pending and its
    data listener is installed, a frame whose payload is exactly
    [64 00 01 00] fulfils the promise with 'Success': the handshake is in
    its authenticated phase. *)
Theorem authenticate_granted (st : client) (p : promise) (data : Buffer) :
  state_of st p = Some Pending ->
  In p (on_data st) ->
  parseResponse data = Ok [0x64; 0x00; 0x01; 0x00] ->
  state_of (step (EvData data) st) p = Some (Fulfilled (VString "Success"))
  /\ option_map phase_of (state_of (step (EvData data) st) p)
     = Some Authenticated.
Proof.
  intros Hp Hin Hd.
  assert (H : state_of (step (EvData data) st) p
              = Some (Fulfilled (VString "Success"))).
  { cbn [step]. apply emit_data_settles; try assumption; [|discriminate].
    intros q st0. now apply auth_listener_granted. }
  split; [exact H|]. now rewrite H.
Qed.

Lemma authenticate_granted_witness :
  state_of (step (EvData (frame_of (granted accessResponse)))
              (snd example_pending)) (fst example_pending)
  = Some (Fulfilled (VString "Success")).
Proof.
  exact (proj1 (authenticate_granted (snd example_pending)
                  (fst example_pending)
                  (frame_of (granted accessResponse))
                  ltac:(vm_compute; reflexivity)
                  ltac:(vm_compute; left; reflexivity)
                  ltac:(vm_compute; reflexivity))).
Defined.

(** C6.  While the promise of an [authenticate] call is pending and its
    data listener is installed, a frame whose payload is exactly
    [64 00 00 00] rejects the promise with the error 'Access denied', and
    one whose payload is exactly [65 00] rejects it with the error
    'Timeout'. *)
Theorem authenticate_denied_or_timeout (st : client) (p : promise) :
  state_of st p = Some Pending ->
  In p (on_data st) ->
  (forall data,
     parseResponse data = Ok [0x64; 0x00; 0x00; 0x00] ->
     state_of (step (EvData data) st) p
     = Some (Rejected (Error "Access denied")))
  /\ (forall data,
        parseResponse data = Ok [0x65; 0x00] ->
        state_of (step (EvData data) st) p
        = Some (Rejected (Error "Timeout"))).
Proof.
  intros Hp Hin. split; intros data Hd; cbn [step];
    apply emit_data_settles; try assumption; try discriminate;
    intros q st0.
  - now apply auth_listener_denied.
  - now apply auth_listener_timeout.
Qed.

Lemma authenticate_denied_or_timeout_witness :
  state_of (step (EvData (frame_of (denied accessResponse)))
              (snd example_pending)) (fst example_pending)
  = Some (Rejected (Error "Access denied"))
  /\ state_of (step (EvData (frame_of (timeout accessResponse)))
                 (snd example_pending)) (fst example_pending)
     = Some (Rejected (Error "Timeout")).
Proof.
  pose proof (authenticate_denied_or_timeout (snd example_pending)
                (fst example_pending)
                ltac:(vm_compute; reflexivity)
                ltac:(vm_compute; left; reflexivity)) as H.
  split.
  - exact (proj1 H (frame_of (denied accessResponse))
             ltac:(vm_compute; reflexivity)).
  - exact (proj2 H (frame_of (timeout accessResponse))
             ltac:(vm_compute; reflexivity)).
Defined.

(** C9.  While the promise of an [authenticate] call is pending, frames
    whose payload is none of [64 00 01 00], [64 00 00 00] and [65 00] (the
    await signature among them) change nothing at all in the client: after
    any number of them the promise is still pending, neither resolved nor
    rejected. *)
Theorem authenticate_ignores_other_frames (st : client) (p : promise)
    (frames : list Buffer) :
  state_of st p = Some Pending ->
  Forall unclassified frames ->
  run (map EvData frames) st = st
  /\ state_of (run (map EvData frames) st) p = Some Pending.
Proof.
  intros Hp Hf.
  assert (H : run (map EvData frames) st = st).
  { induction Hf as [|data frames Hd _ IH]; [reflexivity|].
    cbn [map]. unfold run in *. cbn [fold_left step].
    rewrite emit_data_ignored; [exact IH|].
    intros q. now apply auth_listener_unclassified. }
  split; [exact H|]. now rewrite H.
Qed.

Lemma await_unclassified : unclassified (frame_of (await accessResponse)).
Proof.
  exists (await accessResponse).
  split; [vm_compute; reflexivity|].
  repeat split; discriminate.
Defined.

Lemma authenticate_ignores_other_frames_witness :
  state_of
    (run (map EvData [frame_of (await accessResponse);
                      frame_of (await accessResponse)])
       (snd example_pending))
    (fst example_pending)
  = Some Pending.
Proof.
  exact (proj2 (authenticate_ignores_other_frames (snd example_pending)
                  (fst example_pending)
                  [frame_of (await accessResponse);
                   frame_of (await accessResponse)]
                  ltac:(vm_compute; reflexivity)
                  (Forall_cons _ await_unclassified
                     (Forall_cons _ await_unclassified (Forall_nil _))))).
Defined.

(* ================================================================== *)
(** * Further properties of the codec and of the client *)

(** ** [createMessage] on every payload *)

Lemma fit_length (room : nat) (cs : list (list Z)) :
  (List.length (Buf.fit room cs) <= room)%nat.
Proof.
  revert room. induction cs as [|c cs IH]; intros room; cbn [Buf.fit].
  - cbn. lia.
  - destruct (Nat.leb_spec (List.length c) room) as [H|H]; [|cbn; lia].
    rewrite length_app. specialize (IH (room - List.length c)%nat). lia.
Qed.

Lemma skipn_zeros (k n : nat) : skipn k (repeat 0 n) = repeat 0 (n - k).
Proof.
  revert k. induction n as [|n IH]; intros [|k]; cbn; auto.
Qed.

Lemma write_zeros_at (pre : list Z) (s : jsstring) (off : Z) (n : nat) :
  off = Buf.length pre ->
  Buf.write s off (pre ++ repeat 0 n)
  = Ok (pre ++ Buf.fit n (Utf8.chunks s)
            ++ repeat 0 (n - List.length (Buf.fit n (Utf8.chunks s)))).
Proof.
  intros ->. unfold Buf.write.
  pose proof (length_nonneg pre) as Hp.
  rewrite length_app_Z.
  assert (Hn : Buf.length (repeat 0 n) = Z.of_nat n)
    by (unfold Buf.length; now rewrite repeat_length).
  rewrite Hn.
  replace ((Buf.length pre <? 0)
           || (Buf.length pre + Z.of_nat n <? Buf.length pre))
    with false
    by (symmetry; apply orb_false_iff; split; apply Z.ltb_ge; lia).
  replace (Z.to_nat (Buf.length pre + Z.of_nat n - Buf.length pre))
    with n by lia.
  set (w := Buf.fit n (Utf8.chunks s)).
  unfold Buf.splice, Buf.length. rewrite Nat2Z.id.
  rewrite firstn_app, Nat.sub_diag, firstn_all, app_nil_r.
  do 2 f_equal.
  rewrite skipn_app, skipn_all2 by lia.
  replace (List.length pre + List.length w - List.length pre)%nat
    with (List.length w) by lia.
  cbn [app]. now rewrite skipn_zeros.
Qed.

Lemma carried_length (payload : Buffer) :
  Buf.length (carried payload) = Buf.length payload.
Proof.
  unfold carried, Buf.length.
  pose proof (fit_length (List.length payload)
                (Utf8.chunks (Buf.toString payload))) as H.
  rewrite length_app, repeat_length. lia.
Qed.

Lemma carried_ascii7 (payload : Buffer) :
  Forall ascii7 payload -> carried payload = payload.
Proof.
  intros H. unfold carried.
  rewrite decode_ascii7, chunks_ascii7, fit_singletons by auto.
  now rewrite Nat.sub_diag, app_nil_r.
Qed.

(** The two outcomes of [createMessage]. *)
Lemma createMessage_cases (payload : Buffer) :
  createMessage payload =
    if Buf.length payload <=? 0xFFFF
    then Ok (envelope_layout (carried payload))
    else out_of_range.
Proof.
  unfold createMessage, envelope_layout, field.
  rewrite carried_length.
  pose proof (length_nonneg payload) as Hp.
  set (name := js "iphone.iapp.samsung").
  change (strlen name) with 19. change (Buf.length name) with 19.
  replace (5 + 19 + Buf.length payload)
    with (Z.of_nat 24 + Z.of_nat (List.length payload))
    by (unfold Buf.length; lia).
  rewrite alloc_add.
  set (zeros := repeat 0 (List.length payload)).
  change (repeat 0 24 ++ zeros)
    with ([0] ++ 0 :: 0 :: (repeat 0 19 ++ [0; 0] ++ zeros)).
  rewrite (writeUInt16LE_at [0]) by (cbn; lia). cbn [bind].
  rewrite (app_assoc [0]).
  rewrite (write_ascii7_at ([0] ++ u16le 19) (repeat 0 19))
    by (try apply name_ascii7; reflexivity).
  cbn [bind]. rewrite (app_assoc ([0] ++ u16le 19)).
  change ([0; 0] ++ zeros) with (0 :: 0 :: zeros).
  destruct (Z.leb_spec (Buf.length payload) 0xFFFF) as [Hl|Hl].
  2:{ now rewrite writeUInt16LE_too_big. }
  rewrite (writeUInt16LE_at (([0] ++ u16le 19) ++ name))
    by (try reflexivity; lia).
  cbn [bind]. rewrite app_assoc. subst zeros.
  rewrite write_zeros_at by (rewrite !length_app_Z; reflexivity).
  cbn [bind]. unfold carried. rewrite <- !app_assoc. reflexivity.
Qed.

(** X1.  On every payload of at most 65535 bytes [createMessage] succeeds.
    Its frame is the envelope of [carried payload]: the header with the
    application name, the length of the payload, and as many bytes as the
    payload has, which are the payload read as UTF-8 and written back.  The
    frame has 24 bytes more than the payload, and [parseResponse] returns
    from it the carried bytes. *)
Theorem createMessage_frame (payload : Buffer) :
  Buf.length payload <= 0xFFFF ->
  createMessage payload = Ok (envelope_layout (carried payload))
  /\ Buf.length (carried payload) = Buf.length payload
  /\ Buf.length (envelope_layout (carried payload)) = 24 + Buf.length payload
  /\ parseResponse (envelope_layout (carried payload)) = Ok (carried payload).
Proof.
  intros Hl. pose proof (carried_length payload) as Hc.
  split.
  { rewrite createMessage_cases.
    now replace (Buf.length payload <=? 0xFFFF) with true
      by (symmetry; now apply Z.leb_le). }
  split; [exact Hc|]. split.
  - unfold envelope_layout, field. rewrite !length_app_Z, !length_u16le, Hc.
    change (Buf.length [0]) with 1.
    change (Buf.length (js "iphone.iapp.samsung")) with 19. lia.
  - apply parseResponse_envelope. now rewrite Hc.
Qed.

Lemma createMessage_frame_witness :
  createMessage [0xC3; 0xA9; 0x80]
  = Ok (envelope_layout [0xC3; 0xA9; 0x00])
  /\ parseResponse (envelope_layout [0xC3; 0xA9; 0x00])
     = Ok [0xC3; 0xA9; 0x00].
Proof.
  pose proof (createMessage_frame [0xC3; 0xA9; 0x80]
                ltac:(vm_compute; discriminate)) as (H1 & _ & _ & H2).
  split; [exact H1 | exact H2].
Defined.

(** X2.  A payload of more than 65535 bytes is refused: [createMessage]
    throws the range error of [writeUInt16LE], and so does
    [sendMessageByPayload], before it creates a promise or touches the
    socket. *)
Theorem createMessage_too_large (payload : Buffer) (d : option Z)
    (flushed : bool) (st : client) :
  0xFFFF < Buf.length payload ->
  createMessage payload = out_of_range
  /\ sendMessageByPayload payload d flushed st = out_of_range.
Proof.
  intros Hl.
  assert (H : createMessage payload = out_of_range).
  { rewrite createMessage_cases.
    now replace (Buf.length payload <=? 0xFFFF) with false
      by (symmetry; apply Z.leb_gt; lia). }
  split; [exact H|]. unfold sendMessageByPayload. now rewrite H.
Qed.

Lemma createMessage_too_large_witness :
  createMessage (repeat 0x41 (Z.to_nat 65536)) = out_of_range
  /\ sendMessageByPayload (repeat 0x41 (Z.to_nat 65536)) None true
       example_connected = out_of_range.
Proof.
  exact (createMessage_too_large (repeat 0x41 (Z.to_nat 65536)) None true
           example_connected ltac:(vm_compute; reflexivity)).
Defined.

(** X3.  A payload of seven-bit bytes, at most 65535 of them, is framed as
    it is and comes back from [parseResponse] unchanged. *)
Theorem createMessage_parseResponse_7bit (payload : Buffer) :
  Forall ascii7 payload ->
  Buf.length payload <= 0xFFFF ->
  createMessage payload = Ok (envelope_layout payload)
  /\ (message <- createMessage payload ;; parseResponse message) = Ok payload.
Proof.
  intros Ha Hl. split; [now apply createMessage_ascii7|].
  rewrite createMessage_ascii7 by assumption. cbn [bind].
  now apply parseResponse_envelope.
Qed.

Lemma createMessage_parseResponse_7bit_witness :
  (message <- createMessage example_key_payload ;; parseResponse message)
  = Ok example_key_payload.
Proof.
  refine (proj2 (createMessage_parseResponse_7bit example_key_payload _ _)).
  - vm_compute. repeat constructor.
  - vm_compute. discriminate.
Defined.

(** ** [parseResponse] on every buffer *)

(** X4.  [parseResponse] reads a frame whatever its first byte, whatever
    its application name and whatever follows the payload: from
    [r | LL LH | name | LL LH | payload | trailing] it returns [payload]. *)
Theorem parseResponse_frame (r : Z) (name payload trailing : list Z) :
  Buf.length name <= 0xFFFF ->
  Buf.length payload <= 0xFFFF ->
  parseResponse ([r] ++ field name ++ field payload ++ trailing) = Ok payload.
Proof.
  intros Hn Hl.
  pose proof (length_nonneg name) as Hn0.
  pose proof (length_nonneg payload) as Hp0.
  unfold parseResponse, field. rewrite <- !app_assoc.
  rewrite (readUInt16LE_at [r]) by (try reflexivity; lia). cbn [bind].
  rewrite (app_assoc [r]), (app_assoc _ name).
  rewrite (readUInt16LE_at (([r] ++ u16le (Buf.length name)) ++ name))
    by (try lia; rewrite !length_app_Z, length_u16le;
        change (Buf.length [r]) with 1; lia).
  cbn [bind]. f_equal. rewrite (app_assoc _ (u16le (Buf.length payload))).
  apply slice_at; rewrite ?length_app_Z, ?length_u16le;
    change (Buf.length [r]) with 1; lia.
Qed.

Lemma parseResponse_frame_witness :
  parseResponse ([0x02] ++ field (js "iapp.samsung")
                   ++ field [0x64; 0x00; 0x01; 0x00] ++ [0xFF; 0xFF])
  = Ok [0x64; 0x00; 0x01; 0x00].
Proof.
  exact (parseResponse_frame 0x02 (js "iapp.samsung")
           [0x64; 0x00; 0x01; 0x00] [0xFF; 0xFF]
           ltac:(vm_compute; discriminate) ltac:(vm_compute; discriminate)).
Defined.




(** ** Key payloads and the frames of the client *)

Lemma u16le_ascii7 (n : Z) : 0 <= n < 128 -> Forall ascii7 (u16le n).
Proof.
  intros H. unfold u16le, ascii7.
  rewrite (Z.mod_small n 256) by lia.
  rewrite (Z.div_small n 256) by lia.
  repeat constructor; cbn; lia.
Qed.

Lemma field_ascii7 (bs : list Z) :
  Forall ascii7 bs -> Buf.length bs < 128 -> Forall ascii7 (field bs).
Proof.
  intros Ha Hl. unfold field. apply Forall_app. split; [|exact Ha].
  apply u16le_ascii7. pose proof (length_nonneg bs). lia.
Qed.

Lemma length_field (bs : list Z) : Buf.length (field bs) = 2 + Buf.length bs.
Proof. unfold field. now rewrite length_app_Z, length_u16le. Qed.

Lemma fits16_small (s : jsstring) : strlen (toBase64 s) < 128 -> fits16 s = true.
Proof. intros H. apply fits16_spec. unfold strlen in *. lia. Qed.

(** X6.  For a key whose base64 form has at most 65535 bytes,
    [createKeyPayload] returns [00 00 00 | LL LH | key-base64]: the length
    field, read back at offset 3, is the byte length of the base64 form,
    four bytes for every three bytes (rounded up) of the UTF-8 form of the
    key; the payload has five bytes more than the base64 form. *)
Theorem createKeyPayload_layout (key : jsstring) :
  fits16 key = true ->
  let k := toBase64 key in
  let payload := [0x00; 0x00; 0x00] ++ u16le (Buf.length k) ++ k in
  createKeyPayload key = Ok payload
  /\ Buf.readUInt16LE 3 payload = Ok (Buf.length k)
  /\ Buf.length payload = 5 + Buf.length k
  /\ Buf.length k = 4 * ((Buf.length (Buf.from_string key) + 2) / 3).
Proof.
  intros Fk k payload. split.
  { rewrite createKeyPayload_cases, Fk. reflexivity. }
  apply fits16_spec in Fk. fold k in Fk.
  change (strlen k) with (Buf.length k) in Fk.
  split; [|split].
  - unfold payload. apply (readUInt16LE_at [0; 0; 0]); [exact Fk|reflexivity].
  - unfold payload. rewrite !length_app_Z, length_u16le.
    change (Buf.length [0; 0; 0]) with 3. lia.
  - apply base64_length.
Qed.

Lemma createKeyPayload_layout_witness :
  createKeyPayload (js "KEY_VOLUP")
  = Ok ([0x00; 0x00; 0x00] ++ u16le 12 ++ js "S0VZX1ZPTFVQ").
Proof.
  exact (proj1 (createKeyPayload_layout (js "KEY_VOLUP")
                  ltac:(vm_compute; reflexivity))).
Defined.

(** X7.  A key longer than 49151 bytes in UTF-8 has a base64 form of more
    than 65535 bytes: [createKeyPayload] throws a range error and returns no
    payload. *)
Theorem createKeyPayload_too_long (key : jsstring) :
  49151 < Buf.length (Buf.from_string key) ->
  createKeyPayload key = out_of_range.
Proof.
  intros H. rewrite createKeyPayload_cases.
  replace (fits16 key) with false; [reflexivity|].
  symmetry. unfold fits16. apply Z.leb_gt.
  unfold toBase64, Buf.toString_base64. rewrite base64_length.
  assert (16384 <= (Buf.length (Buf.from_string key) + 2) / 3)
    by (apply Z.div_le_lower_bound; lia).
  lia.
Qed.

Lemma createKeyPayload_too_long_witness :
  createKeyPayload (repeat 0x41 (Z.to_nat 49152)) = out_of_range.
Proof.
  exact (createKeyPayload_too_long (repeat 0x41 (Z.to_nat 49152))
           ltac:(vm_compute; reflexivity)).
Defined.

Lemma key_layout_ascii7 (key : jsstring) :
  strlen (toBase64 key) < 128 ->
  Forall ascii7 (key_layout key) /\ Buf.length (key_layout key) <= 0xFFFF.
Proof.
  intros H. unfold key_layout. split.
  - apply Forall_app. split; [unfold ascii7; repeat constructor|].
    apply field_ascii7; [apply toBase64_ascii7 | exact H].
  - rewrite length_app_Z, length_field.
    change (Buf.length [0; 0; 0]) with 3.
    change (Buf.length (toBase64 key)) with (strlen (toBase64 key)). lia.
Qed.

(** X8.  Sending a key whose base64 form is shorter than 128 bytes, that is
    [sendMessageByPayload(createKeyPayload(key))], writes to the socket
    exactly [00 | 13 00 | "iphone.iapp.samsung" | LL LH | 00 00 00 | LL LH |
    key-base64], from which [parseResponse] gives back the key payload; the
    promise returned is pending. *)
Theorem key_send_writes_frame (key : jsstring) (d : option Z)
    (flushed : bool) (st : client) :
  strlen (toBase64 key) < 128 ->
  exists q st',
    (payload <- createKeyPayload key ;;
     sendMessageByPayload payload d flushed st) = Ok (q, st')
    /\ calls st' = calls st ++ [SockWrite (envelope_layout (key_layout key))]
    /\ parseResponse (envelope_layout (key_layout key)) = Ok (key_layout key)
    /\ state_of st' q = Some Pending.
Proof.
  intros H. destruct (key_layout_ascii7 key H) as (Ha & Hl).
  rewrite createKeyPayload_cases, (fits16_small key H). cbn [bind].
  unfold sendMessageByPayload. rewrite createMessage_ascii7 by assumption.
  cbn [bind].
  destruct (sendMessage_spec (envelope_layout (key_layout key))
              (Some (default d (delay st))) flushed st)
    as (_ & Hq & Hc & _).
  destruct (sendMessage (envelope_layout (key_layout key))
              (Some (default d (delay st))) flushed st) as [q st'].
  cbn [fst snd] in *. exists q, st'.
  repeat split; auto. now apply parseResponse_envelope.
Qed.

Lemma key_send_writes_frame_witness :
  exists q st',
    (payload <- createKeyPayload (js "KEY_VOLDOWN") ;;
     sendMessageByPayload payload None true example_connected) = Ok (q, st')
    /\ calls st' = calls example_connected
                   ++ [SockWrite (envelope_layout
                                    (key_layout (js "KEY_VOLDOWN")))]
    /\ parseResponse (envelope_layout (key_layout (js "KEY_VOLDOWN")))
       = Ok (key_layout (js "KEY_VOLDOWN"))
    /\ state_of st' q = Some Pending.
Proof.
  exact (key_send_writes_frame (js "KEY_VOLDOWN") None true example_connected
           ltac:(vm_compute; reflexivity)).
Defined.

(** ** [authenticate], call by call *)

Lemma auth_layout_ascii7 (ip id name : jsstring) :
  strlen (toBase64 ip) < 128 ->
  strlen (toBase64 id) < 128 ->
  strlen (toBase64 name) < 128 ->
  Forall ascii7 (auth_layout ip id name)
  /\ Buf.length (auth_layout ip id name) <= 0xFFFF.
Proof.
  intros Ha Hb Hc. unfold auth_layout. split.
  - apply Forall_app. split; [unfold ascii7; repeat constructor|].
    apply Forall_app. split; [|apply Forall_app; split];
      apply field_ascii7; auto using toBase64_ascii7.
  - rewrite !length_app_Z, !length_field.
    change (Buf.length [0x64; 0]) with 2.
    unfold strlen, Buf.length in *. lia.
Qed.

(** X9.  [authenticate] with a valid address and three strings whose base64
    forms are shorter than 128 bytes writes to the socket exactly the
    envelope of [64 | 00 | LL LH ip-base64 | LL LH id-base64 | LL LH
    name-base64], installs its data listener after the listeners already
    there, and returns a pending promise. *)
Theorem authenticate_writes_frame (ip id name : jsstring) (st : client) :
  Net.isIP ip <> 0 ->
  strlen (toBase64 ip) < 128 ->
  strlen (toBase64 id) < 128 ->
  strlen (toBase64 name) < 128 ->
  state_of (snd (authenticate ip id name st)) (fst (authenticate ip id name st))
  = Some Pending
  /\ calls (snd (authenticate ip id name st))
     = calls st ++ [SockWrite (envelope_layout (auth_layout ip id name))]
  /\ on_data (snd (authenticate ip id name st))
     = on_data st ++ [fst (authenticate ip id name st)].
Proof.
  intros Hip Ha Hb Hc.
  destruct (auth_layout_ascii7 ip id name Ha Hb Hc) as (H7 & Hl).
  assert (Hp : createAuthPayload ip id name = Ok (auth_layout ip id name)).
  { rewrite createAuthPayload_cases by assumption.
    now rewrite !fits16_small by assumption. }
  pose proof (createMessage_ascii7 _ H7 Hl) as Hm.
  unfold authenticate.
  replace (Net.isIP ip =? 0) with false by (symmetry; now apply Z.eqb_neq).
  rewrite Hp. cbn [bind]. rewrite Hm.
  pose proof (state_of_fresh st) as Hf.
  destruct (new_promise st) as [p st1] eqn:E. cbn [fst snd] in *.
  replace st1 with (snd (new_promise st)) in * by now rewrite E.
  now repeat split.
Qed.

Lemma authenticate_writes_frame_witness :
  calls (snd example_pending)
  = calls example_connected
    ++ [SockWrite (envelope_layout
                     (auth_layout (js "192.168.0.2") (js "uid")
                        (js "remote")))]
  /\ on_data (snd example_pending)
     = on_data example_connected ++ [fst example_pending].
Proof.
  exact (proj2 (authenticate_writes_frame (js "192.168.0.2") (js "uid")
                  (js "remote") example_connected
                  ltac:(vm_compute; discriminate)
                  ltac:(vm_compute; reflexivity)
                  ltac:(vm_compute; reflexivity)
                  ltac:(vm_compute; reflexivity))).
Defined.

Lemma rejected_twice (p : promise) (e1 e2 : exn) (st : client) :
  state_of st p = Some Pending ->
  state_of (reject p e2 (reject p e1 st)) p = Some (Rejected e1)
  /\ calls (reject p e2 (reject p e1 st)) = calls st
  /\ on_data (reject p e2 (reject p e1 st)) = on_data st.
Proof.
  intros H. unfold reject.
  destruct (settle_frame p (Rejected e1) st) as (_ & C1 & _ & _ & D1 & _).
  destruct (settle_frame p (Rejected e2) (settle p (Rejected e1) st))
    as (_ & C2 & _ & _ & D2 & _).
  rewrite C2, C1, D2, D1. repeat split.
  rewrite !state_of_settle, Nat.eqb_refl, H. reflexivity.
Qed.

(** X10.  [authenticate] with a string that is no IP literal rejects its
    promise with 'Not a valid IP'; unlike [connect] it stops there: nothing
    is written to the socket and no data listener is installed. *)
Theorem authenticate_invalid_address (ip id name : jsstring) (st : client) :
  Net.isIP ip = 0 ->
  state_of (snd (authenticate ip id name st)) (fst (authenticate ip id name st))
  = Some (Rejected (Error "Not a valid IP"))
  /\ calls (snd (authenticate ip id name st)) = calls st
  /\ on_data (snd (authenticate ip id name st)) = on_data st.
Proof.
  intros Hip. unfold authenticate, createAuthPayload. rewrite Hip.
  cbn [Z.eqb bind].
  pose proof (state_of_fresh st) as Hf.
  destruct (new_promise st) as [p st1] eqn:E. cbn [fst snd] in *.
  replace st1 with (snd (new_promise st)) in * by now rewrite E.
  apply (rejected_twice p _ _ _ Hf).
Qed.

Lemma authenticate_invalid_address_witness :
  state_of
    (snd (authenticate (js "999.999.999.999") (js "uid") (js "remote")
            example_connected)) 1%nat
  = Some (Rejected (Error "Not a valid IP"))
  /\ calls (snd (authenticate (js "999.999.999.999") (js "uid")
                   (js "remote") example_connected))
     = calls example_connected.
Proof.
  pose proof (authenticate_invalid_address (js "999.999.999.999") (js "uid")
                (js "remote") example_connected
                ltac:(vm_compute; reflexivity)) as (H1 & H2 & _).
  split; [exact H1 | exact H2].
Defined.

(** X11.  [authenticate] with a valid address and a string whose base64
    form has more than 65535 bytes rejects its promise with the range error
    that [createAuthPayload] throws; nothing is written to the socket and no
    data listener is installed. *)
Theorem authenticate_oversized (ip id name : jsstring) (st : client) :
  Net.isIP ip <> 0 ->
  fits16 ip && fits16 id && fits16 name = false ->
  state_of (snd (authenticate ip id name st)) (fst (authenticate ip id name st))
  = Some (Rejected (RangeError "ERR_OUT_OF_RANGE"))
  /\ calls (snd (authenticate ip id name st)) = calls st
  /\ on_data (snd (authenticate ip id name st)) = on_data st.
Proof.
  intros Hip Hf. unfold authenticate.
  rewrite createAuthPayload_cases, Hf by assumption.
  replace (Net.isIP ip =? 0) with false by (symmetry; now apply Z.eqb_neq).
  cbn [bind out_of_range].
  pose proof (state_of_fresh st) as Hp.
  destruct (new_promise st) as [p st1] eqn:E. cbn [fst snd] in *.
  replace st1 with (snd (new_promise st)) in * by now rewrite E.
  destruct (settle_frame p (Rejected (RangeError "ERR_OUT_OF_RANGE"))
              (snd (new_promise st))) as (_ & C1 & _ & _ & D1 & _).
  unfold reject. rewrite C1, D1. repeat split.
  now rewrite state_of_settle, Nat.eqb_refl, Hp.
Qed.

Lemma authenticate_oversized_witness :
  calls (snd (authenticate (js "192.168.0.2") (repeat 97 (Z.to_nat 49152))
                (js "remote") example_connected))
  = calls example_connected.
Proof.
  exact (proj1 (proj2 (authenticate_oversized (js "192.168.0.2")
                         (repeat 97 (Z.to_nat 49152)) (js "remote")
                         example_connected
                         ltac:(vm_compute; discriminate)
                         ltac:(vm_compute; reflexivity)))).
Defined.

(** ** Promises under the events of the socket *)

Lemma settle_keeps (p q : promise) (x s : promise_state) (st : client) :
  state_of st q = Some s -> s <> Pending ->
  state_of (settle p x st) q = Some s.
Proof.
  intros H Hs. rewrite state_of_settle, H.
  destruct (Nat.eqb q p); [|reflexivity]. now destruct s.
Qed.

Lemma fold_settle_keeps (ls : list promise) (x : promise_state) :
  forall st q s, state_of st q = Some s -> s <> Pending ->
    state_of (fold_left (fun s p => settle p x s) ls st) q = Some s.
Proof.
  induction ls as [|p ls IH]; intros st q s H Hs; [exact H|].
  cbn [fold_left]. apply IH; [|exact Hs]. now apply settle_keeps.
Qed.

Lemma fold_settle_other (ls : list promise) (x : promise_state) :
  forall st q, ~ In q ls ->
    state_of (fold_left (fun s p => settle p x s) ls st) q = state_of st q.
Proof.
  induction ls as [|p ls IH]; intros st q Hq; [reflexivity|].
  cbn [fold_left]. rewrite IH by (intros Hin; apply Hq; now right).
  apply state_of_settle_other. intros ->. apply Hq. now left.
Qed.

Lemma fold_settle_settles (ls : list promise) (x : promise_state) :
  x <> Pending ->
  forall st q, state_of st q = Some Pending -> In q ls ->
    state_of (fold_left (fun s p => settle p x s) ls st) q = Some x.
Proof.
  intros Hx. induction ls as [|p ls IH]; intros st q Hq Hin; [destruct Hin|].
  cbn [fold_left]. destruct (Nat.eq_dec p q) as [->|Hpq].
  - apply fold_settle_keeps; [|exact Hx].
    now rewrite state_of_settle, Nat.eqb_refl, Hq.
  - apply IH; [|destruct Hin; congruence].
    now rewrite state_of_settle_other.
Qed.

Lemma emit_data_keeps (ls : list promise) (data : Buffer) :
  forall st q s, state_of st q = Some s -> s <> Pending ->
    state_of (emit_data ls data st) q = Some s.
Proof.
  induction ls as [|p ls IH]; intros st q s H Hs; [exact H|].
  cbn [emit_data].
  destruct (auth_listener p data st) as [st'|e] eqn:E; [|exact H].
  apply auth_listener_cases in E. destruct E as [->|[x ->]].
  - now apply IH.
  - apply IH; [|exact Hs]. now apply settle_keeps.
Qed.

Lemma step_keeps (ev : event) (st : client) (q : promise)
    (s : promise_state) :
  state_of st q = Some s -> s <> Pending ->
  state_of (step ev st) q = Some s.
Proof.
  intros H Hs. destruct ev as [|e|data|k]; cbn [step].
  - now apply (fold_settle_keeps (on_connect st) (Fulfilled VUndefined)).
  - destruct (on_error st) as [|p ls]; [exact H|].
    now apply (fold_settle_keeps (p :: ls) (Rejected e)).
  - now apply emit_data_keeps.
  - destruct (nth_error (timers st) k) as [[p ms]|]; [|exact H].
    now apply (settle_keeps p q (Fulfilled VUndefined) s (clear_timer k st)).
Qed.

Lemma connect_listeners (ip : jsstring) (st : client) :
  on_connect (snd (connect ip st)) = on_connect st ++ [fst (connect ip st)]
  /\ on_error (snd (connect ip st)) = on_error st ++ [fst (connect ip st)].
Proof.
  unfold connect.
  destruct (new_promise st) as [p st1] eqn:E.
  assert (E1 : st1 = snd (new_promise st)) by now rewrite E.
  destruct (settle_frame p (Rejected (Error "Not a valid IP")) st1)
    as (_ & _ & Hoc & Hoe & _).
  cbn [fst snd]. unfold reject.
  destruct (Net.isIP ip =? 0); cbn; rewrite ?Hoc, ?Hoe, E1; split; reflexivity.
Qed.

(** X12.  After [connect] on a valid address the promise is pending and is
    settled by what the socket reports first: the connection fulfils it
    (without a value), an error rejects it with that error. *)
Theorem connect_settles (ip : jsstring) (st : client) :
  Net.isIP ip <> 0 ->
  state_of (snd (connect ip st)) (fst (connect ip st)) = Some Pending
  /\ state_of (step EvConnect (snd (connect ip st))) (fst (connect ip st))
     = Some (Fulfilled VUndefined)
  /\ forall e,
       state_of (step (EvError e) (snd (connect ip st))) (fst (connect ip st))
       = Some (Rejected e).
Proof.
  intros Hip.
  destruct (connect_valid_address ip st Hip) as (Hp & _).
  destruct (connect_listeners ip st) as (Hoc & Hoe).
  set (p := fst (connect ip st)) in *. set (st' := snd (connect ip st)) in *.
  split; [exact Hp|]. split.
  - cbn [step].
    apply (fold_settle_settles (on_connect st') (Fulfilled VUndefined));
      [discriminate | exact Hp |].
    rewrite Hoc. apply in_or_app. right. now left.
  - intros e. cbn [step].
    assert (Hin : In p (on_error st'))
      by (rewrite Hoe; apply in_or_app; right; now left).
    destruct (on_error st') as [|p0 ls]; [destruct Hin|].
    now apply (fold_settle_settles (p0 :: ls) (Rejected e)).
Qed.

Lemma connect_settles_witness :
  state_of example_connected 0%nat = Some (Fulfilled VUndefined)
  /\ state_of
       (step (EvError (Error "connect ECONNREFUSED"))
          (snd (connect (js "192.168.0.10") (constructor None)))) 0%nat
     = Some (Rejected (Error "connect ECONNREFUSED")).
Proof.
  pose proof (connect_settles (js "192.168.0.10") (constructor None)
                ltac:(vm_compute; discriminate)) as (_ & H1 & H2).
  split; [exact H1 | exact (H2 (Error "connect ECONNREFUSED"))].
Defined.

(** X13.  A promise settles once: when it is fulfilled or rejected, no
    event of the socket and no timer changes it any more.  A handshake that
    was granted stays granted when a denied frame or a socket error comes
    later. *)
Theorem settled_promise_stays (st : client) (p : promise)
    (s : promise_state) (evs : list event) :
  state_of st p = Some s ->
  s <> Pending ->
  state_of (run evs st) p = Some s.
Proof.
  intros H Hs. revert st H.
  induction evs as [|ev evs IH]; intros st H; [exact H|].
  cbn. apply IH. now apply step_keeps.
Qed.

Lemma settled_promise_stays_witness :
  state_of
    (run [EvData (frame_of (denied accessResponse));
          EvError (Error "read ECONNRESET")]
       (step (EvData (frame_of (granted accessResponse)))
          (snd example_pending)))
    (fst example_pending)
  = Some (Fulfilled (VString "Success")).
Proof.
  exact (settled_promise_stays
           (step (EvData (frame_of (granted accessResponse)))
              (snd example_pending))
           (fst example_pending) (Fulfilled (VString "Success"))
           [EvData (frame_of (denied accessResponse));
            EvError (Error "read ECONNRESET")]
           ltac:(vm_compute; reflexivity) ltac:(discriminate)).
Defined.

(** X14.  A chunk of data that [parseResponse] cannot read, arriving while
    a data listener is installed, makes the first listener throw: the
    exception is left uncaught, the listeners after it are not run, and no
    promise is settled, the one of [authenticate] included. *)
Theorem unreadable_frame_is_uncaught (st : client) (data : Buffer)
    (e : exn) :
  on_data st <> [] ->
  parseResponse data = Throw e ->
  step (EvData data) st = throw_uncaught e st
  /\ uncaught (step (EvData data) st) = uncaught st ++ [e]
  /\ forall p, state_of (step (EvData data) st) p = state_of st p.
Proof.
  intros Hl Hp.
  assert (H : step (EvData data) st = throw_uncaught e st).
  { cbn [step]. destruct (on_data st) as [|p ls]; [congruence|].
    cbn [emit_data]. unfold auth_listener. now rewrite Hp. }
  rewrite H. now repeat split.
Qed.

Lemma unreadable_frame_is_uncaught_witness :
  uncaught (step (EvData [0x64; 0x00]) (snd example_pending))
  = [RangeError "ERR_OUT_OF_RANGE"]
  /\ state_of (step (EvData [0x64; 0x00]) (snd example_pending))
       (fst example_pending) = Some Pending.
Proof.
  pose proof (unreadable_frame_is_uncaught (snd example_pending)
                [0x64; 0x00] (RangeError "ERR_OUT_OF_RANGE")
                ltac:(vm_compute; discriminate)
                ltac:(vm_compute; reflexivity)) as (_ & H1 & H2).
  split; [exact H1|].
  rewrite H2. vm_compute. reflexivity.
Defined.

Lemma step_listeners (ev : event) (st : client) :
  on_error (step ev st) = on_error st /\ on_data (step ev st) = on_data st.
Proof.
  destruct ev as [|e|data|k]; cbn [step].
  - destruct (fold_resolve_shape (on_connect st) VUndefined
                (clear_on_connect st)) as (_ & H1 & H2 & _).
    now rewrite H1, H2.
  - destruct (on_error st) as [|p ls] eqn:E; [split; [exact E|reflexivity]|].
    destruct (fold_reject_shape (p :: ls) e st) as (_ & H1 & H2 & _).
    rewrite H1, H2. split; [exact E|reflexivity].
  - destruct (emit_data_shape (on_data st) data st) as (_ & H1 & H2 & _).
    now rewrite H1, H2.
  - destruct (nth_error (timers st) k) as [[p ms]|]; [|now split].
    destruct (settle_shape p (Fulfilled VUndefined) (clear_timer k st))
      as (_ & H1 & H2 & _).
    unfold resolve. now rewrite H1, H2.
Qed.

(** X15.  The client never removes a listener of 'error' or of 'data':
    after any events the socket has the listeners it had, in the same
    order.  The listener of a settled [authenticate] stays installed and
    goes on reading every frame. *)
Theorem listeners_never_removed (evs : list event) (st : client) :
  on_error (run evs st) = on_error st /\ on_data (run evs st) = on_data st.
Proof.
  revert st. induction evs as [|ev evs IH]; intros st; [now split|].
  change (run (ev :: evs) st) with (run evs (step ev st)).
  destruct (IH (step ev st)) as (H1 & H2). rewrite H1, H2.
  apply step_listeners.
Qed.

Lemma step_waits (ev : event) (st : client) (q : promise) :
  is_timer ev = false ->
  waits_for_timer st q -> waits_for_timer (step ev st) q.
Proof.
  intros Hev (Hp & Hc & He & Hd).
  destruct (step_listeners ev st) as (L1 & L2).
  unfold waits_for_timer. rewrite L1, L2.
  destruct ev as [|e|data|k]; [| | |discriminate Hev]; cbn [step].
  - destruct (fold_resolve_shape (on_connect st) VUndefined
                (clear_on_connect st)) as (H1 & _).
    rewrite H1. repeat split; auto.
    rewrite (fold_settle_other (on_connect st) (Fulfilled VUndefined))
      by assumption.
    exact Hp.
  - destruct (on_error st) as [|p ls] eqn:E; [now repeat split|].
    destruct (fold_reject_shape (p :: ls) e st) as (H1 & _).
    rewrite H1. repeat split; auto.
    now rewrite (fold_settle_other (p :: ls) (Rejected e)).
  - destruct (emit_data_shape (on_data st) data st) as (H1 & _).
    destruct (emit_data_frame (on_data st) data st) as (_ & _ & H2).
    rewrite H1, H2 by assumption. now repeat split.
Qed.

(** X16.  The promise of [sendMessage] waits for its timer: whatever the
    socket reports in between (connection, data, errors), the promise is
    still pending as long as no timer has expired. *)
Theorem sendMessage_pending_until_timer (message : Buffer) (d : option Z)
    (flushed : bool) (st : client) (evs : list event) :
  wf st ->
  Forall (fun ev => is_timer ev = false) evs ->
  state_of (run evs (snd (sendMessage message d flushed st)))
    (fst (sendMessage message d flushed st)) = Some Pending.
Proof.
  intros (Wc & We & Wd & _) Hevs.
  destruct (sendMessage_spec message d flushed st)
    as (Hq & Hp & _ & _ & Hoc & Hoe & Hod & _).
  set (q := fst (sendMessage message d flushed st)) in *.
  assert (W : waits_for_timer (snd (sendMessage message d flushed st)) q).
  { unfold waits_for_timer. rewrite Hoc, Hoe, Hod, Hq.
    repeat split; auto using wf_fresh_unknown. }
  clearbody q. clear Hq Hp Hoc Hoe Hod.
  revert W. generalize (snd (sendMessage message d flushed st)).
  induction Hevs as [|ev evs Hev _ IH]; intros st0 W; [apply W|].
  cbn. apply IH. now apply step_waits.
Qed.

Lemma sendMessage_pending_until_timer_witness :
  state_of
    (run [EvData (frame_of (await accessResponse));
          EvError (Error "write EPIPE")]
       (snd (sendMessage (frame_of example_key_payload) (Some 500) true
               example_connected)))
    (fst (sendMessage (frame_of example_key_payload) (Some 500) true
            example_connected))
  = Some Pending.
Proof.
  exact (sendMessage_pending_until_timer (frame_of example_key_payload)
           (Some 500) true example_connected
           [EvData (frame_of (await accessResponse));
            EvError (Error "write EPIPE")]
           example_connected_wf
           ltac:(repeat constructor)).
Defined.

(** X17.  [sendMessageByPayload] hands its delay on to [sendMessage]: the
    timer of the promise is set to the delay of the call when that is given
    and not zero, and to the delay of the constructor otherwise. *)
Theorem sendMessageByPayload_delay (payload message : Buffer) (d : option Z)
    (flushed : bool) (st : client) :
  createMessage payload = Ok message ->
  exists q st',
    sendMessageByPayload payload d flushed st = Ok (q, st')
    /\ timers st'
       = timers st
         ++ [(q, match d with
                 | Some ms => if ms =? 0 then delay st else ms
                 | None => delay st
                 end)].
Proof.
  intros Hm. unfold sendMessageByPayload. rewrite Hm. cbn [bind].
  destruct (sendMessage_spec message (Some (default d (delay st))) flushed st)
    as (_ & _ & _ & Ht & _).
  destruct (sendMessage message (Some (default d (delay st))) flushed st)
    as [q st']. cbn [fst snd] in *.
  exists q, st'. split; [reflexivity|]. rewrite Ht.
  unfold js_or, default. destruct d as [ms|]; [reflexivity|].
  now destruct (delay st =? 0).
Qed.

Lemma sendMessageByPayload_delay_witness :
  exists q st',
    sendMessageByPayload example_key_payload (Some 0) true
      (constructor (Some 250)) = Ok (q, st')
    /\ timers st' = timers (constructor (Some 250)) ++ [(q, 250)].
Proof.
  exact (sendMessageByPayload_delay example_key_payload
           (envelope_layout example_key_payload) (Some 0) true
           (constructor (Some 250)) ltac:(vm_compute; reflexivity)).
Defined.

Lemma settle_settled (p : promise) (x : promise_state) (st : client) :
  state_of st p <> Some Pending -> settle p x st = st.
Proof.
  unfold settle. destruct (state_of st p) as [[| |]|]; congruence.
Qed.

(** X18.  A socket error that comes when every promise with an error
    listener is already settled (after the connection is established, say)
    reaches a listener and is dropped there: the client is left exactly as
    it was, no promise is rejected and no exception is raised. *)
Theorem late_socket_error_is_dropped (st : client) (e : exn) :
  on_error st <> [] ->
  Forall (fun p => state_of st p <> Some Pending) (on_error st) ->
  step (EvError e) st = st.
Proof.
  intros Hne Hall. cbn [step].
  destruct (on_error st) as [|p0 ls0] eqn:E; [congruence|]. clear Hne E.
  induction Hall as [|p ls Hp _ IH]; [reflexivity|].
  cbn [fold_left]. unfold reject at 2. now rewrite settle_settled.
Qed.

Lemma late_socket_error_is_dropped_witness :
  step (EvError (Error "read ECONNRESET")) example_connected
  = example_connected.
Proof.
  exact (late_socket_error_is_dropped example_connected
           (Error "read ECONNRESET")
           ltac:(vm_compute; discriminate)
           ltac:(vm_compute; repeat constructor; discriminate)).
Defined.
